(** * Cookie monitoring log processing

    A shallow embedding of
    [lms/djangoapps/monitoring/scripts/process_cookie_monitoring_logs.py]:
    the rule table [PARAMETERIZED_COOKIES], the loader [_load_csv], the
    aggregation [process_cookie_headers] and the report
    [print_processed_cookies], followed by the properties established for
    them.

    Conventions of the model.
    - A Python [str] is a [string]; its characters are the code points
      below 256, and the classes [\d], [\w] and the white space removed by
      [str.strip] are written out for that range.
    - A Python [int] is a [Z]; [len] is [Z.of_nat] of a length.  [int] of a
      string of digits raises [ValueError] above 4300 digits, the default
      limit of CPython on the conversion.
    - A Python [dict] is an association list in insertion order: assigning
      to a key that is present replaces the value in place, assigning to a
      new key appends an entry.
    - A [datetime] is a [Z] (a point on a totally ordered time line); the
      parser of the [dateutil] library is a parameter, and so is the kind
      of a datetime, with a zone or without.  [min] raises [TypeError] on a
      pair of the two kinds: [process_cookie_headers] is the aggregation of
      headers whose time stamps [min] can compare, and
      [process_cookie_headers_run] adds the exception.
    - An exception is the [Raise] result; [logging] calls are collected in a
      list of entries; what [print] writes is the list of lines of a
      [printing], which also tells whether an exception ended the run. *)

From Stdlib Require Import ZArith List Bool Ascii String Lia Permutation Sorted.
Import ListNotations.

Local Open Scope string_scope.
Local Open Scope Z_scope.

(** ** Python string operations *)

Module Str.

(** [s[n:]] *)
Fixpoint drop (n : nat) (s : string) : string :=
  match n, s with
  | O, _ => s
  | S _, EmptyString => EmptyString
  | S n', String _ s' => drop n' s'
  end.

(** [s[:n]] *)
Fixpoint take (n : nat) (s : string) : string :=
  match n, s with
  | O, _ => EmptyString
  | S _, EmptyString => EmptyString
  | S n', String c s' => String c (take n' s')
  end.

(** [s.startswith(p)] *)
Fixpoint startswith (p s : string) : bool :=
  match p, s with
  | EmptyString, _ => true
  | String _ _, EmptyString => false
  | String a p', String b s' => Ascii.eqb a b && startswith p' s'
  end.

(** [s.count(sub)] for a non-empty [sub]: occurrences are counted from the
    left and do not overlap; [skip] is the number of characters of the
    occurrence just counted that are still to be passed over. *)
Fixpoint count_from (sub s : string) (skip : nat) : nat :=
  match s with
  | EmptyString => O
  | String _ s' =>
      match skip with
      | S k => count_from sub s' k
      | O => if startswith sub s
             then S (count_from sub s' (String.length sub - 1))
             else count_from sub s' O
      end
  end.

Definition count (s sub : string) : nat := count_from sub s O.

(** [s.split(sep)] for a non-empty [sep]; [cur] is the piece being read,
    in reverse. *)
Fixpoint rev_onto (r acc : string) : string :=
  match r with
  | EmptyString => acc
  | String c r' => rev_onto r' (String c acc)
  end.

Fixpoint split_from (sep s : string) (skip : nat) (cur : string) : list string :=
  match s with
  | EmptyString => [rev_onto cur EmptyString]
  | String c s' =>
      match skip with
      | S k => split_from sep s' k cur
      | O => if startswith sep s
             then rev_onto cur EmptyString
                    :: split_from sep s' (String.length sep - 1) EmptyString
             else split_from sep s' O (String c cur)
      end
  end.

Definition split (s sep : string) : list string := split_from sep s O EmptyString.

(** White space in the sense of [str.isspace], for code points below 256. *)
Definition isspace (c : ascii) : bool :=
  let n := nat_of_ascii c in
  ((9 <=? n) && (n <=? 13) || (28 <=? n) && (n <=? 32)
   || (n =? 133) || (n =? 160))%nat.

Fixpoint lstrip (s : string) : string :=
  match s with
  | EmptyString => EmptyString
  | String c s' => if isspace c then lstrip s' else s
  end.

Fixpoint rstrip (s : string) : string :=
  match s with
  | EmptyString => EmptyString
  | String c s' =>
      match rstrip s' with
      | EmptyString => if isspace c then EmptyString else String c EmptyString
      | t => String c t
      end
  end.

(** [s.strip()] *)
Definition strip (s : string) : string := rstrip (lstrip s).

(** [s in seen] for a set of strings. *)
Fixpoint mem (s : string) (seen : list string) : bool :=
  match seen with
  | [] => false
  | t :: seen' => String.eqb s t || mem s seen'
  end.

Definition isdigit (c : ascii) : bool :=
  let n := nat_of_ascii c in ((48 <=? n) && (n <=? 57))%nat.

(** The number that a string of decimal digits writes: the value of
    [int(s)] when [int] accepts the string. *)
Fixpoint int_from (acc : Z) (s : string) : Z :=
  match s with
  | EmptyString => acc
  | String c s' => int_from (10 * acc + (Z.of_nat (nat_of_ascii c) - 48)) s'
  end.

Definition int (s : string) : Z := int_from 0 s.

Definition len (s : string) : Z := Z.of_nat (String.length s).

End Str.

(** ** The regular expressions of the script

    The fragment of Python's [re] syntax that the script uses: literal
    text, one character of a class, greedy repetition of a class, the end
    anchor and named groups.  Matching is by backtracking, leftmost
    alternative first, as in [re]. *)

Module Re.

Inductive charset : Type :=
| CChar (c : ascii)            (* a literal character *)
| CDigit                       (* \d *)
| CWord                        (* \w *)
| CDot                         (* .  : anything but a line feed *)
| CUnion (a b : charset).      (* (a|b) over single characters *)

Inductive regex : Type :=
| Lit (s : string)
| One (cs : charset)
| Star (cs : charset)          (* cs*, greedy *)
| Plus (cs : charset)          (* cs+, greedy *)
| Eol                          (* $ *)
| Group (name : string) (r : regex)   (* (?P<name>r) *)
| Seq (r1 r2 : regex).

Definition newline : ascii := ascii_of_nat 10.

Definition isword (c : ascii) : bool :=
  let n := nat_of_ascii c in
  (Str.isdigit c
   || (65 <=? n) && (n <=? 90) || (97 <=? n) && (n <=? 122) || (n =? 95)
   || (n =? 170) || (n =? 178) || (n =? 179) || (n =? 181) || (n =? 185)
   || (n =? 186) || (188 <=? n) && (n <=? 190)
   || (192 <=? n) && (n <=? 214) || (216 <=? n) && (n <=? 246)
   || (248 <=? n))%nat.

Fixpoint inset (cs : charset) (c : ascii) : bool :=
  match cs with
  | CChar d => Ascii.eqb c d
  | CDigit => Str.isdigit c
  | CWord => isword c
  | CDot => negb (Ascii.eqb c newline)
  | CUnion a b => inset a c || inset b c
  end.

(** [$] without [re.MULTILINE]: at the end of the string, or just before
    a line feed that is its last character. *)
Definition at_eol (s : string) : bool :=
  match s with
  | EmptyString => true
  | String c EmptyString => Ascii.eqb c newline
  | _ => false
  end.

Definition captures : Type := list (string * string).

Fixpoint group (name : string) (caps : captures) : option string :=
  match caps with
  | [] => None
  | (n, v) :: caps' => if String.eqb n name then Some v else group name caps'
  end.

Section Matcher.
Variable R : Type.

(** Greedy repetition: take one more character when possible and come
    back to the shorter match when the rest of the pattern fails. *)
Fixpoint star (cs : charset) (s : string) (k : string -> option R) : option R :=
  match s with
  | EmptyString => k s
  | String c s' =>
      if inset cs c
      then match star cs s' k with
           | Some r => Some r
           | None => k s
           end
      else k s
  end.

(** [run r s caps k]: match [r] at the start of [s]; [k] continues with
    the rest of the string and the groups captured so far. *)
Fixpoint run (r : regex) (s : string) (caps : captures)
         (k : string -> captures -> option R) : option R :=
  match r with
  | Lit l => if Str.startswith l s then k (Str.drop (String.length l) s) caps else None
  | One cs =>
      match s with
      | String c s' => if inset cs c then k s' caps else None
      | EmptyString => None
      end
  | Star cs => star cs s (fun s' => k s' caps)
  | Plus cs =>
      match s with
      | String c s' => if inset cs c then star cs s' (fun s'' => k s'' caps) else None
      | EmptyString => None
      end
  | Eol => if at_eol s then k s caps else None
  | Group name r' =>
      run r' s caps
          (fun s' caps' =>
             k s' ((name, Str.take (String.length s - String.length s') s) :: caps'))
  | Seq r1 r2 => run r1 s caps (fun s' caps' => run r2 s' caps' k)
  end.
End Matcher.

(** [regex.match(s)]: a match that starts at the first character. *)
Definition rmatch (r : regex) (s : string) : option captures :=
  run captures r s [] (fun _ caps => Some caps).

(** [regex.search(s)]: the match at the leftmost position that has one. *)
Fixpoint search (r : regex) (s : string) : option captures :=
  match rmatch r s with
  | Some caps => Some caps
  | None =>
      match s with
      | EmptyString => None
      | String _ s' => search r s'
      end
  end.

Definition seq (rs : list regex) : regex := fold_right Seq (Lit "") rs.

End Re.

Import Re.

(** ** The rule table *)

Definition PARAMETERIZED_COOKIES : list (regex * string) :=
  [ (seq [Lit "_gac_UA-"; Plus (CUnion CDigit (CChar "-")); Eol], "_gac_UA-{id}");
    (seq [Lit "_hjSession_"; Plus CDigit; Eol], "_hjSession_{id}");
    (seq [Lit "_hjSessionUser_"; Plus CDigit; Eol], "_hjSessionUser_{id}");
    (seq [Lit "ab"; One CDot; Lit "storage"; One CDot; Lit "deviceId"; Star CDot; Eol],
     "ab.storage.deviceId.{id}");
    (seq [Lit "ab"; One CDot; Lit "storage"; One CDot; Lit "sessionId"; Star CDot; Eol],
     "ab.storage.deviceId.{id}");
    (seq [Lit "ab"; One CDot; Lit "storage"; One CDot; Lit "userId"; Star CDot; Eol],
     "ab.storage.userId.{id}");
    (seq [Lit "AMCV_"; Plus CWord; Lit "%40AdobeOrg"; Eol], "AMCV_{id}@AdobeOrg");
    (seq [Lit "amplitude_id_"; Star CDot; Eol], "amplitude_id_{id}");
    (seq [Lit "mp_"; Plus CWord; Lit "_mixpanel"; Eol], "mp_{id}_mixpanel") ].

(** The loop over the table in [process_cookie_headers]: the name becomes
    the replacement of the first rule whose pattern matches at its start,
    and stays as it is when no rule does. *)
Fixpoint replace_parameterized (rules : list (regex * string)) (name : string) : string :=
  match rules with
  | [] => name
  | (re, replacement_name) :: rules' =>
      match rmatch re name with
      | Some _ => replacement_name
      | None => replace_parameterized rules' name
      end
  end.

Definition normalize_name (name : string) : string :=
  replace_parameterized PARAMETERIZED_COOKIES name.

(** ** Results, diagnostics and dictionaries *)

Inductive exn : Type :=
| AttributeError     (* a method called on [None] *)
| TypeError          (* [parser.parse(None)]; [min] on datetimes of the two kinds;
                        [None] among strings to sort or join *)
| ParserError        (* [parser.parse] on a string it cannot read *)
| ValueError.        (* [int] on more digits than the limit *)

Inductive result (A : Type) : Type :=
| Ok (a : A)
| Raise (e : exn).

Arguments Ok {A} a.
Arguments Raise {A} e.

(** [int(s)] on a string of decimal digits.  CPython refuses to convert a
    string of more than [sys.int_info.default_max_str_digits] digits. *)
Definition max_str_digits : nat := 43 * 100.

Definition int_of_digits (s : string) : result Z :=
  if (String.length s <=? max_str_digits)%nat then Ok (Str.int s) else Raise ValueError.

Inductive level : Type := DEBUG | INFO | WARNING | ERROR.

Definition log_entry : Type := (level * string)%type.

Module Dict.
Section Dict.
Context {V : Type}.

(** [d.get(k)] *)
Fixpoint get (k : string) (d : list (string * V)) : option V :=
  match d with
  | [] => None
  | (k', v) :: d' => if String.eqb k' k then Some v else get k d'
  end.

(** [d[k] = v] *)
Fixpoint set (k : string) (v : V) (d : list (string * V)) : list (string * V) :=
  match d with
  | [] => [(k, v)]
  | (k', v') :: d' =>
      if String.eqb k' k then (k', v) :: d' else (k', v') :: set k v d'
  end.
End Dict.
End Dict.

(** ** The loader: [_load_csv] *)

(** A row as [csv.DictReader] yields it; a column that the export lacks
    reads as [None]. *)
Record row : Type := {
  _raw : option string;
  _time : option string;
  index : option string
}.

Definition datetime : Type := Z.

Record cookie_header : Type := {
  hdr_datetime : datetime;
  hdr_env : option string;
  cookie_header_size : Z;
  cookie_header_size_computed : Z;
  cookie_sizes : list (string * Z)
}.

(** The pattern of a log message: the begin marker, the text "(total=", the
    group [total] of one or more digits, a closing parenthesis, the group
    [cookie_sizes] of any run of characters on one line, and the end
    marker. *)
Definition cookie_log_regex : regex :=
  seq [Lit "BEGIN-COOKIE-SIZES"; Lit "(total="; Group "total" (Plus CDigit); Lit ")";
       Group "cookie_sizes" (Star CDot); Lit "END-COOKIE-SIZES"].

(** The pattern of one size: the group [name] of any run of characters, a
    colon and a space, and the group [size] of one or more digits. *)
Definition cookie_size_regex : regex :=
  seq [Group "name" (Star CDot); Lit ": "; Group "size" (Plus CDigit)].

(** [match.group(name)] for a group that took part in the match. *)
Definition group_of (name : string) (m : captures) : string :=
  match group name m with
  | Some v => v
  | None => ""
  end.

(** The state of the loop over the rows. *)
Record loader : Type := {
  cookie_sizes_strings_processed : list string;
  cookie_headers : list cookie_header;
  logged : list log_entry
}.

Definition say (l : level) (msg : string) (st : loader) : loader :=
  {| cookie_sizes_strings_processed := cookie_sizes_strings_processed st;
     cookie_headers := cookie_headers st;
     logged := (logged st ++ [(l, msg)])%list |}.

(** One turn of the loop over the fragments of a payload, for a size that
    [int] accepts. *)
Definition parse_cookie_size (acc : list (string * Z) * list log_entry) (cookie_size : string)
  : list (string * Z) * list log_entry :=
  match search cookie_size_regex cookie_size with
  | None =>
      (fst acc,
       (snd acc ++ [(ERROR, ("Could not parse cookie size from: " ++ cookie_size)%string)])%list)
  | Some m =>
      (Dict.set (group_of "name" m) (Str.int (group_of "size" m)) (fst acc), snd acc)
  end.

(** One turn of the loop over the fragments with the exception of [int],
    and the loop. *)
Definition parse_cookie_size_step (acc : list (string * Z) * list log_entry)
           (cookie_size : string) : result (list (string * Z) * list log_entry) :=
  match search cookie_size_regex cookie_size with
  | None =>
      Ok (fst acc,
          (snd acc ++ [(ERROR, ("Could not parse cookie size from: " ++ cookie_size)%string)])%list)
  | Some m =>
      match int_of_digits (group_of "size" m) with
      | Raise e => Raise e
      | Ok size => Ok (Dict.set (group_of "name" m) size (fst acc), snd acc)
      end
  end.

Fixpoint parse_cookie_sizes (cookie_sizes : list string)
         (acc : list (string * Z) * list log_entry)
  : result (list (string * Z) * list log_entry) :=
  match cookie_sizes with
  | [] => Ok acc
  | cookie_size :: cookie_sizes' =>
      match parse_cookie_size_step acc cookie_size with
      | Ok acc' => parse_cookie_sizes cookie_sizes' acc'
      | Raise e => Raise e
      end
  end.

(** [max(0, sum(len(name) + size + 3 for (name, size) in items) - 2)] *)
Definition header_size_computed (cookie_header_sizes : list (string * Z)) : Z :=
  Z.max 0
    (fold_right (fun item acc => Str.len (fst item) + snd item + 3 + acc) 0
                cookie_header_sizes - 2).

Section Loader.

(** [dateutil.parser.parse] on a string; [None] when it raises. *)
Variable parse_time : string -> option datetime.

Definition parser_parse (t : option string) : result datetime :=
  match t with
  | None => Raise TypeError
  | Some s =>
      match parse_time s with
      | Some d => Ok d
      | None => Raise ParserError
      end
  end.

(** The loop body from the search of [cookie_log_regex] on. *)
Definition load_search (st : loader) (r : row) (raw_cookie_log : string) : result loader :=
  match search cookie_log_regex raw_cookie_log with
  | None => Ok (say ERROR "Multiple cookie entries found in same row. Skipping row." st)
  | Some m =>
      match int_of_digits (group_of "total" m) with
      | Raise e => Raise e
      | Ok cookie_header_size =>
          if cookie_header_size =? 0 then Ok st
          else
            let cookie_sizes_str := Str.strip (group_of "cookie_sizes" m) in
            if Str.mem cookie_sizes_str (cookie_sizes_strings_processed st)
            then Ok (say DEBUG "Skipping already processed cookies." st)
            else
              match parse_cookie_sizes (Str.split cookie_sizes_str ", ") ([], logged st) with
              | Raise e => Raise e
              | Ok parsed =>
                  let cookie_header_sizes := fst parsed in
                  match parser_parse (_time r) with
                  | Raise e => Raise e
                  | Ok d =>
                      Ok {| cookie_sizes_strings_processed :=
                              cookie_sizes_str :: cookie_sizes_strings_processed st;
                            cookie_headers :=
                              (cookie_headers st ++
                                [ {| hdr_datetime := d;
                                     hdr_env := index r;
                                     cookie_header_size := cookie_header_size;
                                     cookie_header_size_computed :=
                                       header_size_computed cookie_header_sizes;
                                     cookie_sizes := cookie_header_sizes |} ])%list;
                            logged := snd parsed |}
                  end
              end
      end
  end.

(** The loop body. *)
Definition load_row (st : loader) (r : row) : result loader :=
  match _raw r with
  | None => Raise AttributeError
  | Some raw_cookie_log =>
      let cookie_begin_count := Str.count raw_cookie_log "BEGIN-COOKIE-SIZES" in
      if (cookie_begin_count =? 0)%nat
      then load_search (say INFO "No BEGIN-COOKIE-SIZES delimeter found. Skipping row." st)
                       r raw_cookie_log
      else if (1 <? cookie_begin_count)%nat
      then Ok (say WARNING "Multiple cookie entries found in same row. Skipping row." st)
      else load_search st r raw_cookie_log
  end.

Fixpoint load_rows (st : loader) (rows : list row) : result loader :=
  match rows with
  | [] => Ok st
  | r :: rows' =>
      match load_row st r with
      | Ok st' => load_rows st' rows'
      | Raise e => Raise e
      end
  end.

Definition loader_init : loader :=
  {| cookie_sizes_strings_processed := []; cookie_headers := []; logged := [] |}.

Definition _load_csv (rows : list row) : result (list cookie_header) :=
  match load_rows loader_init rows with
  | Ok st => Ok (cookie_headers st)
  | Raise e => Raise e
  end.

End Loader.

(** ** The aggregation: [process_cookie_headers] *)

(** The dictionary kept for one cookie name.  Every pass of the loop body
    assigns all of its keys before it is stored, so a stored dictionary has
    them all. *)
Record processed_cookie : Type := {
  count : Z;
  min_size : Z;
  max_size : Z;
  min_full_size : Z;
  max_full_size : Z;
  first_seen : datetime;
  envs : list (option string);
  max_cookie_count : Z;
  min_cookie_count : Z;
  max_header_size : Z;
  min_header_size : Z
}.

(** [processed_cookie.get(key, default)], where [processed_cookie] is the
    stored dictionary or the empty one. *)
Definition get_or {A : Type} (old : option processed_cookie)
           (key : processed_cookie -> A) (default : A) : A :=
  match old with
  | Some p => key p
  | None => default
  end.

(** [envs.add(env)] *)
Definition set_add (e : option string) (s : list (option string)) : list (option string) :=
  if existsb (fun x =>
                match x, e with
                | Some a, Some b => String.eqb a b
                | None, None => true
                | _, _ => false
                end) s
  then s else (s ++ [e])%list.

(** The body of the inner loop after the name has been replaced: [name] is
    the variable [name] at that point. *)
Definition update_cookie (header : cookie_header) (name : string) (size : Z)
           (old : option processed_cookie) : processed_cookie :=
  let full_size := Str.len name + size + 2 in
  let cookie_count := Z.of_nat (List.length (cookie_sizes header)) in
  {| count := get_or old count 0 + 1;
     min_size := Z.min size (get_or old min_size size);
     max_size := Z.max size (get_or old max_size 0);
     min_full_size := Z.min full_size (get_or old min_full_size full_size);
     max_full_size := Z.max full_size (get_or old max_full_size 0);
     first_seen := Z.min (hdr_datetime header) (get_or old first_seen (hdr_datetime header));
     envs := set_add (hdr_env header) (get_or old envs []);
     max_cookie_count := Z.max cookie_count (get_or old max_cookie_count 0);
     min_cookie_count := Z.min cookie_count (get_or old min_cookie_count cookie_count);
     max_header_size := Z.max (cookie_header_size header) (get_or old max_header_size 0);
     min_header_size :=
       Z.min (cookie_header_size header)
             (get_or old min_header_size (cookie_header_size header)) |}.

Definition processed : Type := list (string * processed_cookie).

(** One pass of the inner loop. *)
Definition process_cookie (header : cookie_header) (processed_cookies : processed)
           (item : string * Z) : processed :=
  let name := normalize_name (fst item) in
  Dict.set name (update_cookie header name (snd item) (Dict.get name processed_cookies))
           processed_cookies.

(** One pass of the outer loop. *)
Definition process_header (processed_cookies : processed) (header : cookie_header) : processed :=
  fold_left (process_cookie header) (cookie_sizes header) processed_cookies.

Definition process_cookie_headers (headers : list cookie_header) : processed :=
  fold_left process_header headers [].

(** *** The exception of [min]

    [aware] tells whether a datetime carries a zone.  The [min] of the time
    of the header and the [first_seen] of the entry raises [TypeError] when
    one of the two does and the other does not; with no entry yet, the time
    of the header is compared with itself. *)
Section Kinds.
Variable aware : datetime -> bool.

Definition process_cookie_run (header : cookie_header) (processed_cookies : processed)
           (item : string * Z) : result processed :=
  match Dict.get (normalize_name (fst item)) processed_cookies with
  | Some processed_cookie =>
      if Bool.eqb (aware (hdr_datetime header)) (aware (first_seen processed_cookie))
      then Ok (process_cookie header processed_cookies item)
      else Raise TypeError
  | None => Ok (process_cookie header processed_cookies item)
  end.

Fixpoint process_items_run (header : cookie_header) (items : list (string * Z))
         (processed_cookies : processed) : result processed :=
  match items with
  | [] => Ok processed_cookies
  | item :: items' =>
      match process_cookie_run header processed_cookies item with
      | Ok processed_cookies' => process_items_run header items' processed_cookies'
      | Raise e => Raise e
      end
  end.

Fixpoint process_headers_run (headers : list cookie_header) (processed_cookies : processed)
  : result processed :=
  match headers with
  | [] => Ok processed_cookies
  | header :: headers' =>
      match process_items_run header (cookie_sizes header) processed_cookies with
      | Ok processed_cookies' => process_headers_run headers' processed_cookies'
      | Raise e => Raise e
      end
  end.

Definition process_cookie_headers_run (headers : list cookie_header) : result processed :=
  process_headers_run headers [].

End Kinds.

(** ** The report: [print_processed_cookies] *)

(** [sorted(items, key=key, reverse=True)].  Python's sort is stable, also
    under [reverse=True], which fixes its result: the one list in
    non-increasing key order in which items of equal key keep their order.
    It is computed here by insertion from the right. *)
Section Sorted.
Context {A : Type}.
Variable key : A -> Z.

Fixpoint insert_desc (x : A) (l : list A) : list A :=
  match l with
  | [] => [x]
  | y :: l' => if key y <=? key x then x :: l else y :: insert_desc x l'
  end.

Definition sorted_reverse (l : list A) : list A := fold_right insert_desc [] l.
End Sorted.

Definition sorted_cookie_items (processed_cookies : processed) : processed :=
  sorted_reverse (fun x => max_full_size (snd x)) processed_cookies.

(** A printed line: the line of column names, or the line of one cookie,
    kept as the name and the dictionary its fields are formatted from. *)
Inductive line : Type :=
| Header (columns : string)
| Data (name : string) (data : processed_cookie).

(** What a run leaves on standard output, and the exception that ended the
    run, if one did. *)
Record printing : Type := {
  printed : list line;
  ended : option exn
}.

(** The last field of a line is [",".join(sorted(data["envs"]))], which
    raises [TypeError] when the set holds [None]: in [sorted] when it has
    another element, in [join] when it has not. *)
Definition envs_printable (envs : list (option string)) : bool :=
  forallb (fun e => match e with Some _ => true | None => false end) envs.

(** The loop over the sorted items: a line is formatted, then printed; the
    lines printed before an exception stay printed. *)
Fixpoint print_items (items : processed) : printing :=
  match items with
  | [] => {| printed := []; ended := None |}
  | (name, data) :: items' =>
      if envs_printable (envs data)
      then let rest := print_items items' in
           {| printed := Data name data :: printed rest; ended := ended rest |}
      else {| printed := []; ended := Some TypeError |}
  end.

Definition print_processed_cookies (processed_cookies : processed) : printing :=
  let sorted_cookie_items := sorted_cookie_items processed_cookies in
  let rest := print_items sorted_cookie_items in
  {| printed :=
       Header ("name,max_full_size,min_full_size,max_size,min_size,first_seen,count,"
               ++ "max_cookie_count,min_cookie_count,max_header_size,min_header_size,envs")
       :: printed rest;
     ended := ended rest |}.

(** ** The entry point: [main]

    The rows are those that [csv.DictReader] yields for the file. *)
Definition main (aware : datetime -> bool) (parse_time : string -> option datetime)
           (rows : list row) : printing :=
  match _load_csv parse_time rows with
  | Raise e => {| printed := []; ended := Some e |}
  | Ok cookie_headers =>
      match process_cookie_headers_run aware cookie_headers with
      | Raise e => {| printed := []; ended := Some e |}
      | Ok processed_cookie_headers => print_processed_cookies processed_cookie_headers
      end
  end.

(** ** Notions used to state the properties *)

(** A text that stays on one line: it has no line feed, except possibly as
    its last character. *)
Fixpoint one_line (s : string) : bool :=
  match s with
  | EmptyString => true
  | String c s' =>
      if Ascii.eqb c newline
      then match s' with EmptyString => true | _ => false end
      else one_line s'
  end.

(** The number of items of a header whose name is replaced by [key], and the
    same over a list of headers. *)
Definition named (key : string) (item : string * Z) : bool :=
  String.eqb (normalize_name (fst item)) key.

Definition occurrences_in (key : string) (header : cookie_header) : nat :=
  List.length (filter (named key) (cookie_sizes header)).

Definition occurrences (key : string) (headers : list cookie_header) : nat :=
  list_sum (map (occurrences_in key) headers).

(** The number of headers in which [key] appears after replacement. *)
Definition records_with (key : string) (headers : list cookie_header) : nat :=
  List.length (filter (fun header => existsb (named key) (cookie_sizes header)) headers).

(** The four pairs of bounds of an entry are in order. *)
Definition bounds_ordered (p : processed_cookie) : Prop :=
  min_size p <= max_size p
  /\ min_full_size p <= max_full_size p
  /\ min_cookie_count p <= max_cookie_count p
  /\ min_header_size p <= max_header_size p.

(** The sum of [len(name) + size + 3] over the items of a dictionary. *)
Fixpoint serialized_size (items : list (string * Z)) : Z :=
  match items with
  | [] => 0
  | (name, size) :: items' => (Str.len name + size + 3) + serialized_size items'
  end.


(** The sort key of the report. *)
Definition max_full_size_of (item : string * processed_cookie) : Z :=
  max_full_size (snd item).

(** Every entry of a mapping has its bounds in order. *)
Definition all_ordered (p : processed) : Prop :=
  Forall (fun entry => bounds_ordered (snd entry)) p.

(** Two headers from two environments, used as a running example. *)
Definition sample_headers : list cookie_header :=
  [ {| hdr_datetime := 5; hdr_env := Some "prod"; cookie_header_size := 120;
       cookie_header_size_computed := 107;
       cookie_sizes := [("csrftoken", 64); ("_hjSession_123456", 10)] |};
    {| hdr_datetime := 3; hdr_env := Some "stage"; cookie_header_size := 90;
       cookie_header_size_computed := 80;
       cookie_sizes := [("csrftoken", 70)] |} ].

(** The [count] stored under a key, 0 when the key is absent. *)
Definition count_at (key : string) (p : processed) : Z :=
  get_or (Dict.get key p) count 0.

(** The text counted by the loader at the head of its loop body. *)
Definition begin_marker : string := "BEGIN-COOKIE-SIZES".

(** The computed size of a record agrees with its cookies. *)
Definition computed_ok (h : cookie_header) : Prop :=
  cookie_header_size_computed h = Z.max 0 (serialized_size (cookie_sizes h) - 2).


(** Two loader states that differ at most in what was logged, and two
    outcomes that agree up to that. *)
Definition same_data (a b : loader) : Prop :=
  cookie_sizes_strings_processed a = cookie_sizes_strings_processed b
  /\ cookie_headers a = cookie_headers b.

Definition same_outcome (a b : result loader) : Prop :=
  match a, b with
  | Ok x, Ok y => same_data x y
  | Raise e1, Raise e2 => e1 = e2
  | _, _ => False
  end.


(** *** Further notions *)

(** All characters of a text satisfy a test. *)
Fixpoint all_chars (f : ascii -> bool) (s : string) : bool :=
  match s with
  | EmptyString => true
  | String c s' => f c && all_chars f s'
  end.

(** A row that the loop body passes over before it looks at the set of
    payloads: more than one begin marker, no match of the pattern, or a
    declared total that [int] reads as 0. *)
Definition passed_over (r : row) : Prop :=
  exists raw,
    _raw r = Some raw
    /\ ((1 < Str.count raw "BEGIN-COOKIE-SIZES")%nat
        \/ search cookie_log_regex raw = None
        \/ exists m, search cookie_log_regex raw = Some m
                     /\ int_of_digits (group_of "total" m) = Ok 0).

(** A record as the loader builds it from a row. *)
Definition record_of (parse_time : string -> option datetime) (r : row) (h : cookie_header)
  : Prop :=
  exists raw m t,
    _raw r = Some raw
    /\ search cookie_log_regex raw = Some m
    /\ _time r = Some t
    /\ parse_time t = Some (hdr_datetime h)
    /\ hdr_env h = index r
    /\ cookie_header_size h = Str.int (group_of "total" m)
    /\ cookie_header_size h <> 0
    /\ cookie_sizes h
       = fst (fold_left parse_cookie_size
                        (Str.split (Str.strip (group_of "cookie_sizes" m)) ", ") ([], [])).

(** The items that contribute to the entry of [key], in the order in which
    the two loops meet them, each with its header. *)
Definition contributions (key : string) (headers : list cookie_header)
  : list (cookie_header * Z) :=
  flat_map (fun header =>
              map (fun item => (header, snd item))
                  (filter (named key) (cookie_sizes header)))
           headers.

(** The entry that a list of contributions builds on top of [old]. *)
Definition entry_from (key : string) (l : list (cookie_header * Z))
           (old : option processed_cookie) : option processed_cookie :=
  fold_left (fun old c => Some (update_cookie (fst c) key (snd c) old)) l old.

(** The names of all items of all headers, in the order of the loops. *)
Definition raw_names (headers : list cookie_header) : list string :=
  flat_map (fun header => map fst (cookie_sizes header)) headers.

(** A list without its repetitions, each element at its first place. *)
Fixpoint first_places (l : list string) : list string :=
  match l with
  | [] => []
  | x :: l' => x :: filter (fun y => negb (String.eqb y x)) (first_places l')
  end.

(** The sum of the [count] fields of a mapping. *)
Definition total_count (p : processed) : Z :=
  fold_right (fun entry acc => count (snd entry) + acc) 0 p.


(** [sub] is [l] with some of its elements left out. *)
Inductive subsequence {A : Type} : list A -> list A -> Prop :=
| subseq_nil : subsequence [] []
| subseq_skip (x : A) (sub l : list A) : subsequence sub l -> subsequence sub (x :: l)
| subseq_keep (x : A) (sub l : list A) : subsequence sub l -> subsequence (x :: sub) (x :: l).

(** A text without line feed. *)
Definition no_line_feed (s : string) : bool :=
  all_chars (fun c => negb (Ascii.eqb c newline)) s.

(** A well-formed item of a record: a name on one line and a size that is
    not negative. *)
Definition item_ok (item : string * Z) : Prop :=
  no_line_feed (fst item) = true /\ 0 <= snd item.

(** The item [(raw, size)] of the header [h] of [headers] counts for
    [key]. *)
Definition contributes (key : string) (headers : list cookie_header)
           (h : cookie_header) (raw : string) (size : Z) : Prop :=
  In h headers /\ In (raw, size) (cookie_sizes h) /\ normalize_name raw = key.

(** Two items that count for one key come with time stamps of the two
    kinds, one with a zone and one without. *)
Definition mixed_kinds (aware : datetime -> bool) (headers : list cookie_header) : Prop :=
  exists key h raw size h' raw' size',
    contributes key headers h raw size
    /\ contributes key headers h' raw' size'
    /\ aware (hdr_datetime h) <> aware (hdr_datetime h').

(** Every [first_seen] of the mapping is the time of a header of [headers]
    with an item that counts for the key. *)
Definition first_seen_from (headers : list cookie_header) (p : processed) : Prop :=
  Forall (fun entry =>
            exists h raw size,
              contributes (fst entry) headers h raw size
              /\ first_seen (snd entry) = hdr_datetime h) p.

(** The keys of a dictionary after an assignment to [k]. *)
Definition note_key (ks : list string) (k : string) : list string :=
  (ks ++ (if Str.mem k ks then [] else [k]))%list.

(** A fragment of a payload on which the pattern of one size matches, and
    the entry logged for one on which it does not. *)
Definition fragment_ok (fragment : string) : bool :=
  match search cookie_size_regex fragment with
  | Some _ => true
  | None => false
  end.

Definition fragment_error (fragment : string) : log_entry :=
  (ERROR, "Could not parse cookie size from: " ++ fragment).

(** The numbers of a row are within the limit of [int]: when the pattern of
    a log message matches, the total has at most [max_str_digits] digits,
    and so has the size of every fragment of the payload on which the
    pattern of one size matches. *)
Definition size_within_limit (cookie_size : string) : bool :=
  match search cookie_size_regex cookie_size with
  | None => true
  | Some m => (String.length (group_of "size" m) <=? max_str_digits)%nat
  end.



(** * Properties *)

(** ** Dictionaries *)

Lemma dict_get_set_same {V : Type} (k : string) (v : V) (d : list (string * V)) :
  Dict.get k (Dict.set k v d) = Some v.
Proof.
  induction d as [|[k' v'] d IH]; simpl.
  - now rewrite String.eqb_refl.
  - destruct (String.eqb k' k) eqn:E; simpl; rewrite E; auto.
Qed.

Lemma dict_get_set_other {V : Type} (k k' : string) (v : V) (d : list (string * V)) :
  k <> k' -> Dict.get k' (Dict.set k v d) = Dict.get k' d.
Proof.
  intros Hne. induction d as [|[k0 v0] d IH]; simpl.
  - destruct (String.eqb k k') eqn:E; auto.
    apply String.eqb_eq in E. contradiction.
  - destruct (String.eqb k0 k) eqn:E; simpl.
    + apply String.eqb_eq in E. subst k0.
      destruct (String.eqb k k') eqn:E'; auto.
      apply String.eqb_eq in E'. contradiction.
    + now rewrite IH.
Qed.

Lemma dict_get_in {V : Type} (k : string) (v : V) (d : list (string * V)) :
  Dict.get k d = Some v -> In (k, v) d.
Proof.
  induction d as [|[k' v'] d IH]; simpl; [discriminate|].
  destruct (String.eqb k' k) eqn:E.
  - apply String.eqb_eq in E. intros [= ->]. subst. now left.
  - intros H. right. auto.
Qed.

Lemma dict_set_forall {V : Type} (P : string * V -> Prop) (k : string) (v : V)
      (d : list (string * V)) :
  Forall P d -> (forall k', P (k', v)) -> Forall P (Dict.set k v d).
Proof.
  intros Hd Hv. induction Hd as [|[k' v'] d Hx Hd IH]; simpl.
  - constructor; auto.
  - destruct (String.eqb k' k); constructor; auto.
Qed.

(** ** The name rules *)

Lemma replace_parameterized_cases (rules : list (regex * string)) (name : string) :
  replace_parameterized rules name = name
  \/ exists re, In (re, replace_parameterized rules name) rules.
Proof.
  induction rules as [|[re t] rules IH]; simpl; [now left|].
  destruct (rmatch re name).
  - right. exists re. now left.
  - destruct IH as [IH|[re' IH]]; [now left|].
    right. exists re'. now right.
Qed.

Lemma replace_parameterized_first (before after : list (regex * string))
      (re : regex) (t name : string) :
  (forall re' t', In (re', t') before -> rmatch re' name = None) ->
  rmatch re name <> None ->
  replace_parameterized (before ++ (re, t) :: after) name = t.
Proof.
  induction before as [|[re0 t0] before IH]; simpl; intros Hb Hm.
  - destruct (rmatch re name); [reflexivity|contradiction].
  - rewrite (Hb re0 t0) by now left.
    apply IH; auto. intros re' t' Hin. apply (Hb re' t'). now right.
Qed.

Lemma replace_parameterized_none (rules : list (regex * string)) (name : string) :
  (forall re t, In (re, t) rules -> rmatch re name = None) ->
  replace_parameterized rules name = name.
Proof.
  induction rules as [|[re t] rules IH]; simpl; intros H; [reflexivity|].
  rewrite (H re t) by now left.
  apply IH. intros re' t' Hin. apply (H re' t'). now right.
Qed.

Lemma template_fixed (re : regex) (t : string) :
  In (re, t) PARAMETERIZED_COOKIES -> normalize_name t = t.
Proof.
  unfold PARAMETERIZED_COOKIES. simpl.
  intros H.
  repeat (destruct H as [H|H]; [injection H as _ <-; vm_compute; reflexivity|]).
  contradiction.
Qed.

(** C9.  Replacing parameterized names is idempotent; every replacement name
    of the table is replaced by itself; [_hjSession_123456] becomes
    [_hjSession_{id}]; the rules are tried in the order of the table, each
    at the start of the name (a name that only contains a match is left
    alone), the first that matches gives the result, and a name that no rule
    matches is unchanged. *)
Theorem normalize_name_idempotent :
  (forall name, normalize_name (normalize_name name) = normalize_name name)
  /\ (forall re t, In (re, t) PARAMETERIZED_COOKIES -> normalize_name t = t)
  /\ normalize_name "_hjSession_123456" = "_hjSession_{id}"
  /\ normalize_name "x_hjSession_123456" = "x_hjSession_123456"
  /\ (forall name before re t after,
         PARAMETERIZED_COOKIES = (before ++ (re, t) :: after)%list ->
         (forall re' t', In (re', t') before -> rmatch re' name = None) ->
         rmatch re name <> None ->
         normalize_name name = t)
  /\ (forall name,
         (forall re t, In (re, t) PARAMETERIZED_COOKIES -> rmatch re name = None) ->
         normalize_name name = name).
Proof.
  split; [|split; [|split; [|split; [|split]]]].
  - intros name. unfold normalize_name at 2 3.
    destruct (replace_parameterized_cases PARAMETERIZED_COOKIES name) as [E|[re Hin]].
    + now rewrite E.
    + apply (template_fixed re). exact Hin.
  - exact template_fixed.
  - vm_compute. reflexivity.
  - vm_compute. reflexivity.
  - intros name before re t after E Hb Hm. unfold normalize_name. rewrite E.
    now apply replace_parameterized_first.
  - intros name. apply replace_parameterized_none.
Qed.

Lemma normalize_name_idempotent_witness :
  normalize_name "mp_{id}_mixpanel" = "mp_{id}_mixpanel"
  /\ normalize_name "_hjSessionUser_42" = "_hjSessionUser_{id}"
  /\ normalize_name "csrftoken" = "csrftoken".
Proof.
  destruct normalize_name_idempotent as (_ & Hfix & _ & _ & Hfirst & Hnone).
  split; [|split].
  - apply (Hfix (seq [Lit "mp_"; Plus CWord; Lit "_mixpanel"; Eol])).
    unfold PARAMETERIZED_COOKIES. simpl. tauto.
  - apply (Hfirst "_hjSessionUser_42"
                  (firstn 2 PARAMETERIZED_COOKIES)
                  (seq [Lit "_hjSessionUser_"; Plus CDigit; Eol])
                  "_hjSessionUser_{id}"
                  (skipn 3 PARAMETERIZED_COOKIES)).
    + reflexivity.
    + simpl. intros re' t' [H|[H|[]]]; injection H as <- _; vm_compute; reflexivity.
    + vm_compute. discriminate.
  - apply Hnone. unfold PARAMETERIZED_COOKIES. simpl. intros re t H.
    repeat (destruct H as [H|H]; [injection H as <- _; vm_compute; reflexivity|]).
    contradiction.
Defined.

(** ** Names of the [ab.storage] cookies *)

Lemma star_dot_eol {R : Type} (s : string) (k : string -> option R) (r : R) :
  one_line s = true ->
  (forall s', at_eol s' = true -> k s' = Some r) ->
  star R CDot s k = Some r.
Proof.
  intros Hs Hk. induction s as [|c s IH]; simpl.
  - now apply Hk.
  - simpl in Hs. destruct (Ascii.eqb c newline) eqn:E; simpl.
    + destruct s; [|discriminate]. apply Hk. simpl. exact E.
    + now rewrite IH.
Qed.

Lemma ab_storage_sessionId (rest : string) :
  one_line rest = true ->
  normalize_name ("ab.storage.sessionId" ++ rest) = "ab.storage.deviceId.{id}".
Proof.
  intros H. unfold normalize_name, PARAMETERIZED_COOKIES, replace_parameterized, rmatch.
  simpl.
  rewrite (star_dot_eol (R := captures) rest _ []); auto.
  intros s' Hs'. now rewrite Hs'.
Qed.

Lemma ab_storage_deviceId (rest : string) :
  one_line rest = true ->
  normalize_name ("ab.storage.deviceId" ++ rest) = "ab.storage.deviceId.{id}".
Proof.
  intros H. unfold normalize_name, PARAMETERIZED_COOKIES, replace_parameterized, rmatch.
  simpl.
  rewrite (star_dot_eol (R := captures) rest _ []); auto.
  intros s' Hs'. now rewrite Hs'.
Qed.

(** ** The aggregation *)

Lemma update_cookie_ordered (header : cookie_header) (name : string) (size : Z)
      (old : option processed_cookie) :
  bounds_ordered (update_cookie header name size old).
Proof.
  unfold bounds_ordered, update_cookie. simpl. repeat split; lia.
Qed.

Lemma process_cookie_ordered (header : cookie_header) (p : processed) (item : string * Z) :
  all_ordered p -> all_ordered (process_cookie header p item).
Proof.
  intros H. unfold process_cookie. apply dict_set_forall; auto.
  intros k'. simpl. apply update_cookie_ordered.
Qed.

Lemma process_header_ordered (p : processed) (header : cookie_header) :
  all_ordered p -> all_ordered (process_header p header).
Proof.
  unfold process_header. generalize (cookie_sizes header) as items.
  intros items. revert p.
  induction items as [|item items IH]; simpl; intros p H; auto.
  apply IH. now apply process_cookie_ordered.
Qed.

Lemma process_headers_ordered (headers : list cookie_header) (p : processed) :
  all_ordered p -> all_ordered (fold_left process_header headers p).
Proof.
  revert p. induction headers as [|h headers IH]; simpl; intros p H; auto.
  apply IH. now apply process_header_ordered.
Qed.

(** C8.  After any list of headers has been processed, every entry of the
    result has its four pairs of bounds in order: [min_size <= max_size],
    [min_full_size <= max_full_size], [min_cookie_count <= max_cookie_count]
    and [min_header_size <= max_header_size]. *)
Theorem process_cookie_headers_bounds (headers : list cookie_header) (name : string)
        (p : processed_cookie) :
  Dict.get name (process_cookie_headers headers) = Some p ->
  min_size p <= max_size p
  /\ min_full_size p <= max_full_size p
  /\ min_cookie_count p <= max_cookie_count p
  /\ min_header_size p <= max_header_size p.
Proof.
  intros H. apply dict_get_in in H.
  assert (A : all_ordered (process_cookie_headers headers))
    by (apply process_headers_ordered; constructor).
  unfold all_ordered in A. rewrite Forall_forall in A.
  exact (A _ H).
Qed.

Lemma process_cookie_headers_bounds_witness :
  exists p,
    Dict.get "csrftoken" (process_cookie_headers sample_headers) = Some p
    /\ min_size p = 64 /\ max_size p = 70
    /\ min_size p <= max_size p
    /\ min_full_size p <= max_full_size p
    /\ min_cookie_count p <= max_cookie_count p
    /\ min_header_size p <= max_header_size p.
Proof.
  eexists. split; [vm_compute; reflexivity|].
  split; [reflexivity|split; [reflexivity|]].
  apply (process_cookie_headers_bounds sample_headers "csrftoken").
  vm_compute. reflexivity.
Defined.

(** C1, checked on a header that holds the one cookie [_hjSession_123456] of
    size 10.  The size that enters [min_full_size] and [max_full_size] is 27,
    from the 15 characters of the replacement name [_hjSession_{id}]; with
    the 17 characters of the name as it stands in the header it would
    be 29. *)
Theorem full_size_of_replaced_name :
  let raw_name := "_hjSession_123456" in
  let header :=
    {| hdr_datetime := 0; hdr_env := Some "prod"; cookie_header_size := 29;
       cookie_header_size_computed := 28; cookie_sizes := [(raw_name, 10)] |} in
  Str.len raw_name + 10 + 2 = 29
  /\ exists p,
      process_cookie_headers [header] = [("_hjSession_{id}", p)]
      /\ min_full_size p = 27 /\ max_full_size p = 27.
Proof.
  split; [reflexivity|].
  eexists. split; [vm_compute; reflexivity|].
  split; reflexivity.
Qed.

Lemma process_cookie_count (key : string) (header : cookie_header) (p : processed)
      (item : string * Z) :
  count_at key (process_cookie header p item)
  = count_at key p + (if named key item then 1 else 0).
Proof.
  unfold count_at, process_cookie, named.
  destruct (String.eqb (normalize_name (fst item)) key) eqn:E.
  - apply String.eqb_eq in E. rewrite <- E.
    rewrite dict_get_set_same. reflexivity.
  - apply String.eqb_neq in E.
    rewrite dict_get_set_other by exact E. lia.
Qed.

Lemma process_items_count (key : string) (header : cookie_header)
      (items : list (string * Z)) (p : processed) :
  count_at key (fold_left (process_cookie header) items p)
  = count_at key p + Z.of_nat (List.length (filter (named key) items)).
Proof.
  revert p. induction items as [|item items IH]; simpl; intros p; [lia|].
  rewrite IH, process_cookie_count.
  destruct (named key item); simpl List.length; lia.
Qed.

Lemma process_headers_count (key : string) (headers : list cookie_header) (p : processed) :
  count_at key (fold_left process_header headers p)
  = count_at key p + Z.of_nat (occurrences key headers).
Proof.
  revert p. induction headers as [|h headers IH]; intros p.
  - simpl. unfold occurrences. simpl. lia.
  - simpl fold_left. rewrite IH. unfold process_header.
    rewrite process_items_count. unfold occurrences, occurrences_in. simpl. lia.
Qed.

Lemma existsb_filter_length {A : Type} (f : A -> bool) (l : list A) :
  (List.length (filter f l) <= 1)%nat ->
  List.length (filter f l) = if existsb f l then 1%nat else 0%nat.
Proof.
  induction l as [|x l IH]; simpl; [reflexivity|].
  destruct (f x) eqn:E; simpl.
  - intros H. destruct (filter f l); [reflexivity|simpl in H; lia].
  - exact IH.
Qed.

Lemma occurrences_records (key : string) (headers : list cookie_header) :
  (forall h, In h headers -> (occurrences_in key h <= 1)%nat) ->
  occurrences key headers = records_with key headers.
Proof.
  unfold occurrences, records_with.
  induction headers as [|h headers IH]; simpl; intros H; [reflexivity|].
  rewrite IH by (intros h' Hin; apply H; now right).
  assert (Hh : (occurrences_in key h <= 1)%nat) by (apply H; now left).
  unfold occurrences_in in *. rewrite (existsb_filter_length _ _ Hh).
  destruct (existsb (named key) (cookie_sizes h)); reflexivity.
Qed.

(** C2, as amended.  The [count] of an entry is the number of items, over all
    headers, whose name is replaced by the key of the entry: one for each
    cookie of each header.  It is the number of headers in which the key
    appears whenever no header holds two names that are replaced by it. *)
Theorem count_is_occurrences (headers : list cookie_header) (key : string)
        (p : processed_cookie) :
  Dict.get key (process_cookie_headers headers) = Some p ->
  count p = Z.of_nat (occurrences key headers)
  /\ ((forall h, In h headers -> (occurrences_in key h <= 1)%nat) ->
      count p = Z.of_nat (records_with key headers)).
Proof.
  intros H.
  assert (E : count p = Z.of_nat (occurrences key headers)).
  { pose proof (process_headers_count key headers []) as C.
    unfold count_at in C. fold (process_cookie_headers headers) in C.
    rewrite H in C. simpl in C. exact C. }
  split; [exact E|].
  intros Hone. rewrite E. now rewrite occurrences_records.
Qed.

Lemma count_is_occurrences_witness :
  option_map count (Dict.get "csrftoken" (process_cookie_headers sample_headers))
  = Some (Z.of_nat (records_with "csrftoken" sample_headers))
  /\ records_with "csrftoken" sample_headers = 2%nat.
Proof.
  split; [|reflexivity].
  destruct (Dict.get "csrftoken" (process_cookie_headers sample_headers)) as [p|] eqn:E;
    [|vm_compute in E; discriminate].
  simpl. f_equal.
  apply (count_is_occurrences sample_headers "csrftoken" p E).
  intros h [<-|[<-|[]]]; vm_compute; lia.
Defined.

(** C2 as stated fails on a header that holds two names with the same
    replacement: the key appears in one header and its [count] is 2. *)
Lemma count_is_not_records :
  let header :=
    {| hdr_datetime := 0; hdr_env := Some "prod"; cookie_header_size := 40;
       cookie_header_size_computed := 38;
       cookie_sizes := [("_hjSession_1", 5); ("_hjSession_2", 6)] |} in
  records_with "_hjSession_{id}" [header] = 1%nat
  /\ option_map count (Dict.get "_hjSession_{id}" (process_cookie_headers [header]))
     = Some 2.
Proof.
  split; vm_compute; reflexivity.
Qed.

(** ** The report *)

Section SortedProps.
Context {A : Type}.
Variable key : A -> Z.

Lemma insert_desc_perm (x : A) (l : list A) : Permutation (x :: l) (insert_desc key x l).
Proof.
  induction l as [|y l IH]; simpl; [apply Permutation_refl|].
  destruct (key y <=? key x); [apply Permutation_refl|].
  eapply perm_trans; [apply perm_swap|]. now apply perm_skip.
Qed.

Lemma sorted_reverse_perm (l : list A) : Permutation l (sorted_reverse key l).
Proof.
  induction l as [|x l IH]; simpl; [constructor|].
  eapply perm_trans; [apply perm_skip, IH|]. apply insert_desc_perm.
Qed.




End SortedProps.

Lemma print_items_prefix (items : processed) :
  exists rows rest,
    items = (rows ++ rest)%list
    /\ printed (print_items items) = map (fun item => Data (fst item) (snd item)) rows
    /\ (forall item, In item rows -> envs_printable (envs (snd item)) = true)
    /\ (ended (print_items items) = None /\ rest = []
        \/ ended (print_items items) = Some TypeError
           /\ exists item rest',
               rest = item :: rest' /\ envs_printable (envs (snd item)) = false).
Proof.
  induction items as [|[name data] items IH]; cbn [print_items].
  - exists [], []. repeat split; [intros item []|now left].
  - destruct (envs_printable (envs data)) eqn:E.
    + destruct IH as (rows & rest & -> & Hp & Hok & Hend).
      exists ((name, data) :: rows), rest. cbn [printed ended].
      split; [reflexivity|]. split; [simpl; now rewrite Hp|]. split; [|exact Hend].
      intros item [<-|Hin]; [exact E|now apply Hok].
    + exists [], ((name, data) :: items). cbn [printed ended].
      split; [reflexivity|]. split; [reflexivity|]. split; [intros item []|].
      right. split; [reflexivity|]. now exists (name, data), items.
Qed.



(** ** The loader *)

Lemma count_zero_startswith (sub s : string) :
  Str.startswith sub EmptyString = false ->
  Str.count_from sub s 0 = 0%nat ->
  forall n, Str.startswith sub (Str.drop n s) = false.
Proof.
  intros Hsub. induction s as [|c s IH]; intros H n.
  - destruct n; exact Hsub.
  - cbn [Str.count_from] in H.
    destruct (Str.startswith sub (String c s)) eqn:E; [discriminate|].
    destruct n; [exact E|]. simpl. now apply IH.
Qed.

Lemma rmatch_needs_marker (s : string) :
  Str.startswith begin_marker s = false -> rmatch cookie_log_regex s = None.
Proof.
  intros H. unfold rmatch, cookie_log_regex, seq. cbn [fold_right run].
  fold begin_marker. now rewrite H.
Qed.

Lemma search_needs_marker (s : string) :
  (forall n, Str.startswith begin_marker (Str.drop n s) = false) ->
  search cookie_log_regex s = None.
Proof.
  induction s as [|c s IH]; intros H.
  - reflexivity.
  - cbn [search]. rewrite rmatch_needs_marker by exact (H O).
    apply IH. intros n. exact (H (S n)).
Qed.

Lemma count_zero_search (raw : string) :
  Str.count raw begin_marker = 0%nat -> search cookie_log_regex raw = None.
Proof.
  intros H. apply search_needs_marker.
  apply count_zero_startswith; [reflexivity|exact H].
Qed.

Lemma no_marker_row_log (parse_time : string -> option datetime) (st : loader)
      (r : row) (raw : string) :
  _raw r = Some raw ->
  Str.count raw "BEGIN-COOKIE-SIZES" = 0%nat ->
  exists st',
    load_row parse_time st r = Ok st'
    /\ cookie_headers st' = cookie_headers st
    /\ cookie_sizes_strings_processed st' = cookie_sizes_strings_processed st
    /\ logged st'
       = (logged st
            ++ [ (INFO, "No BEGIN-COOKIE-SIZES delimeter found. Skipping row.");
                 (ERROR, "Multiple cookie entries found in same row. Skipping row.") ])%list.
Proof.
  intros Hraw Hcount. unfold load_row. rewrite Hraw, Hcount. simpl Nat.eqb. cbv iota.
  unfold load_search. rewrite (count_zero_search raw Hcount).
  eexists. split; [reflexivity|]. simpl.
  repeat split. now rewrite <- app_assoc.
Qed.

(** C6, with the diagnostics that the loop body logs.  A row whose text has
    no begin marker leaves the list of headers and the set of payloads as
    they are, so it yields no record; it logs the information that no
    marker was found and then, from the failed search of the pattern, an
    error. *)
Theorem row_without_marker (parse_time : string -> option datetime) (st : loader)
        (r : row) (raw : string) :
  _raw r = Some raw ->
  Str.count raw "BEGIN-COOKIE-SIZES" = 0%nat ->
  exists st',
    load_row parse_time st r = Ok st'
    /\ cookie_headers st' = cookie_headers st
    /\ cookie_sizes_strings_processed st' = cookie_sizes_strings_processed st
    /\ logged st'
       = (logged st
            ++ [ (INFO, "No BEGIN-COOKIE-SIZES delimeter found. Skipping row.");
                 (ERROR, "Multiple cookie entries found in same row. Skipping row.") ])%list.
Proof.
  intros Hraw Hcount. exact (no_marker_row_log parse_time st r raw Hraw Hcount).
Qed.

Lemma row_without_marker_witness :
  _load_csv (fun _ => Some 0) [ {| _raw := Some "GET /dashboard 200"; _time := Some "1";
                                   index := Some "prod" |} ] = Ok []
  /\ exists st',
      load_row (fun _ => Some 0) loader_init
               {| _raw := Some "GET /dashboard 200"; _time := Some "1"; index := Some "prod" |}
      = Ok st'
      /\ logged st'
         = [ (INFO, "No BEGIN-COOKIE-SIZES delimeter found. Skipping row.");
             (ERROR, "Multiple cookie entries found in same row. Skipping row.") ].
Proof.
  split; [reflexivity|].
  destruct (row_without_marker (fun _ => Some 0) loader_init
              {| _raw := Some "GET /dashboard 200"; _time := Some "1"; index := Some "prod" |}
              "GET /dashboard 200" eq_refl eq_refl) as (st' & E & _ & _ & L).
  exists st'. split; [exact E|exact L].
Defined.

(** The outcomes of the loop body, by the tests it makes in turn. *)
Ltac by_load_search :=
  unfold load_search;
  destruct (search cookie_log_regex _) as [m|] eqn:Hsearch;
  [ destruct (int_of_digits (group_of "total" m)) as [total|e0] eqn:Hint;
    [ destruct (total =? 0) eqn:Htotal;
      [ | destruct (Str.mem _ _) eqn:Hmem;
          [ | destruct (parse_cookie_sizes _ _) as [parsed|e1] eqn:Hfrag;
              [ destruct (parser_parse _ _) as [d|e] eqn:Hparse | ] ] ]
    | ]
  | ].

Ltac by_load_row :=
  unfold load_row;
  destruct (_raw _) as [raw_cookie_log|] eqn:Hraw;
  [ destruct (Str.count raw_cookie_log "BEGIN-COOKIE-SIZES" =? 0)%nat eqn:Hzero;
    [ | destruct (1 <? Str.count raw_cookie_log "BEGIN-COOKIE-SIZES")%nat eqn:Hmany ]
  | ].

Lemma int_of_digits_ok (s : string) (v : Z) :
  int_of_digits s = Ok v <-> v = Str.int s /\ (String.length s <= max_str_digits)%nat.
Proof.
  unfold int_of_digits.
  destruct (String.length s <=? max_str_digits)%nat eqn:E.
  - apply Nat.leb_le in E. split; [intros [= <-]; auto|intros [-> _]; reflexivity].
  - apply Nat.leb_gt in E. split; [discriminate|intros [_ H]; lia].
Qed.


Lemma parse_cookie_size_step_pure (acc acc' : list (string * Z) * list log_entry)
      (fragment : string) :
  parse_cookie_size_step acc fragment = Ok acc' -> acc' = parse_cookie_size acc fragment.
Proof.
  unfold parse_cookie_size_step, parse_cookie_size.
  destruct (search cookie_size_regex fragment) as [m|]; [|now intros [= <-]].
  destruct (int_of_digits (group_of "size" m)) as [size|e] eqn:E; [|discriminate].
  apply int_of_digits_ok in E. destruct E as [-> _]. now intros [= <-].
Qed.

Lemma parse_cookie_sizes_pure (fragments : list string)
      (acc parsed : list (string * Z) * list log_entry) :
  parse_cookie_sizes fragments acc = Ok parsed ->
  parsed = fold_left parse_cookie_size fragments acc.
Proof.
  revert acc. induction fragments as [|f fragments IH]; simpl; intros acc.
  - now intros [= <-].
  - destruct (parse_cookie_size_step acc f) as [acc'|e] eqn:E; [|discriminate].
    apply parse_cookie_size_step_pure in E. subst acc'. apply IH.
Qed.

Lemma parse_cookie_sizes_within (fragments : list string)
      (acc : list (string * Z) * list log_entry) :
  forallb size_within_limit fragments = true ->
  parse_cookie_sizes fragments acc = Ok (fold_left parse_cookie_size fragments acc).
Proof.
  revert acc. induction fragments as [|f fragments IH]; simpl; intros acc H; [reflexivity|].
  apply andb_true_iff in H. destruct H as [Hf Hrest].
  assert (E : parse_cookie_size_step acc f = Ok (parse_cookie_size acc f)).
  { unfold parse_cookie_size_step, parse_cookie_size, size_within_limit in *.
    destruct (search cookie_size_regex f) as [m|]; [|reflexivity].
    unfold int_of_digits. now rewrite Hf. }
  rewrite E. now apply IH.
Qed.

Lemma parse_cookie_sizes_beyond (fragments : list string)
      (acc : list (string * Z) * list log_entry) :
  forallb size_within_limit fragments = false ->
  parse_cookie_sizes fragments acc = Raise ValueError.
Proof.
  revert acc. induction fragments as [|f fragments IH]; simpl; intros acc H; [discriminate|].
  unfold parse_cookie_size_step. unfold size_within_limit in H at 1.
  destruct (search cookie_size_regex f) as [m|].
  - unfold int_of_digits.
    destruct (String.length (group_of "size" m) <=? max_str_digits)%nat; [|reflexivity].
    now apply IH.
  - now apply IH.
Qed.

Lemma header_size_computed_sum (items : list (string * Z)) :
  header_size_computed items = Z.max 0 (serialized_size items - 2).
Proof.
  unfold header_size_computed. f_equal. f_equal.
  induction items as [|[name size] items IH]; simpl; [reflexivity|].
  rewrite IH. lia.
Qed.

Lemma load_search_computed (parse_time : string -> option datetime) (st st' : loader)
      (r : row) (raw : string) :
  Forall computed_ok (cookie_headers st) ->
  load_search parse_time st r raw = Ok st' ->
  Forall computed_ok (cookie_headers st').
Proof.
  intros H. by_load_search; intros [= <-]; simpl; auto.
  apply Forall_app. split; [exact H|].
  constructor; [|constructor].
  unfold computed_ok. simpl. apply header_size_computed_sum.
Qed.

Lemma load_row_computed (parse_time : string -> option datetime) (st st' : loader) (r : row) :
  Forall computed_ok (cookie_headers st) ->
  load_row parse_time st r = Ok st' ->
  Forall computed_ok (cookie_headers st').
Proof.
  intros H. by_load_row.
  - apply load_search_computed. exact H.
  - intros [= <-]. exact H.
  - now apply load_search_computed.
  - discriminate.
Qed.

Lemma load_rows_computed (parse_time : string -> option datetime) (rows : list row)
      (st st' : loader) :
  Forall computed_ok (cookie_headers st) ->
  load_rows parse_time st rows = Ok st' ->
  Forall computed_ok (cookie_headers st').
Proof.
  revert st. induction rows as [|r rows IH]; simpl; intros st H.
  - intros [= <-]. exact H.
  - destruct (load_row parse_time st r) as [st1|e] eqn:E; [|discriminate].
    apply IH. eapply load_row_computed; eauto.
Qed.

(** C4.  Every record that the loader returns has for its computed size the
    larger of 0 and the sum of [len(name) + size + 3] over its cookies,
    less 2; the row that lists [a: 1, bb: 22] gives the record with the
    cookies [{a: 1, bb: 22}] and the computed size 30. *)
Theorem computed_total_size (parse_time : string -> option datetime) (rows : list row)
        (headers : list cookie_header) (h : cookie_header) :
  _load_csv parse_time rows = Ok headers ->
  In h headers ->
  cookie_header_size_computed h = Z.max 0 (serialized_size (cookie_sizes h) - 2)
  /\ (cookie_sizes h = [("a", 1); ("bb", 22)] -> cookie_header_size_computed h = 30)
  /\ _load_csv (fun _ => Some 0)
       [ {| _raw := Some "BEGIN-COOKIE-SIZES(total=30) a: 1, bb: 22 END-COOKIE-SIZES";
            _time := Some "2021-06-01 10:00:00"; index := Some "prod" |} ]
     = Ok [ {| hdr_datetime := 0; hdr_env := Some "prod"; cookie_header_size := 30;
               cookie_header_size_computed := 30;
               cookie_sizes := [("a", 1); ("bb", 22)] |} ].
Proof.
  intros Hload Hin.
  assert (E : computed_ok h).
  { unfold _load_csv in Hload.
    destruct (load_rows parse_time loader_init rows) as [st|e] eqn:L; [|discriminate].
    injection Hload as <-.
    pose proof (load_rows_computed parse_time rows loader_init st (Forall_nil _) L) as F.
    rewrite Forall_forall in F. now apply F. }
  split; [exact E|]. split; [|vm_compute; reflexivity].
  intros Hc. unfold computed_ok in E. rewrite E, Hc. reflexivity.
Qed.

Lemma computed_total_size_witness :
  let r := {| _raw := Some "BEGIN-COOKIE-SIZES(total=41) csrftoken: 64, a: 3 END-COOKIE-SIZES";
              _time := Some "2021-06-01 10:00:00"; index := Some "stage" |} in
  let h := {| hdr_datetime := 7; hdr_env := Some "stage"; cookie_header_size := 41;
              cookie_header_size_computed := 81;
              cookie_sizes := [("csrftoken", 64); ("a", 3)] |} in
  _load_csv (fun _ => Some 7) [r] = Ok [h]
  /\ cookie_header_size_computed h = Z.max 0 (serialized_size (cookie_sizes h) - 2).
Proof.
  intros r h. split; [vm_compute; reflexivity|].
  apply (computed_total_size (fun _ => Some 7) [r] [h] h).
  - vm_compute. reflexivity.
  - now left.
Defined.











(** *** Repeated payloads *)

Lemma parse_cookie_sizes_fst (fragments : list string) (sizes : list (string * Z))
      (log1 log2 : list log_entry) :
  fst (fold_left parse_cookie_size fragments (sizes, log1))
  = fst (fold_left parse_cookie_size fragments (sizes, log2)).
Proof.
  revert sizes log1 log2. induction fragments as [|f fragments IH]; intros; [reflexivity|].
  simpl. unfold parse_cookie_size at 2 4. simpl.
  destruct (search cookie_size_regex f); apply IH.
Qed.

Lemma load_search_same (parse_time : string -> option datetime) (a b : loader)
      (r : row) (raw : string) :
  same_data a b ->
  same_outcome (load_search parse_time a r raw) (load_search parse_time b r raw).
Proof.
  intros [Hs Hh]. unfold load_search.
  destruct (search cookie_log_regex raw) as [m|]; [|split; assumption].
  destruct (int_of_digits (group_of "total" m)) as [total|e]; [|reflexivity].
  destruct (total =? 0); [split; assumption|].
  rewrite Hs.
  destruct (Str.mem _ _); [split; assumption|].
  destruct (forallb size_within_limit
                    (Str.split (Str.strip (group_of "cookie_sizes" m)) ", ")) eqn:Hf.
  - rewrite !(parse_cookie_sizes_within _ _ Hf).
    destruct (parser_parse parse_time (_time r)); [|reflexivity].
    split; simpl.
    + reflexivity.
    + rewrite Hh.
      now rewrite (parse_cookie_sizes_fst _ [] (logged a) (logged b)).
  - rewrite !(parse_cookie_sizes_beyond _ _ Hf). reflexivity.
Qed.

Lemma say_same (l : level) (msg : string) (a b : loader) :
  same_data a b -> same_data (say l msg a) b.
Proof.
  intros H. exact H.
Qed.

Lemma same_data_sym (a b : loader) : same_data a b -> same_data b a.
Proof.
  intros [H1 H2]. split; auto.
Qed.

Lemma same_data_trans (a b c : loader) : same_data a b -> same_data b c -> same_data a c.
Proof.
  intros [H1 H2] [H3 H4]. split; congruence.
Qed.

Lemma load_row_same (parse_time : string -> option datetime) (a b : loader) (r : row) :
  same_data a b ->
  same_outcome (load_row parse_time a r) (load_row parse_time b r).
Proof.
  intros H. unfold load_row.
  destruct (_raw r) as [raw|]; [|reflexivity].
  destruct (Str.count raw "BEGIN-COOKIE-SIZES" =? 0)%nat.
  - apply load_search_same.
    apply say_same. apply same_data_sym. apply say_same. now apply same_data_sym.
  - destruct (1 <? Str.count raw "BEGIN-COOKIE-SIZES")%nat.
    + exact H.
    + now apply load_search_same.
Qed.

Lemma load_rows_same (parse_time : string -> option datetime) (rows : list row)
      (a b : loader) :
  same_data a b ->
  same_outcome (load_rows parse_time a rows) (load_rows parse_time b rows).
Proof.
  revert a b. induction rows as [|r rows IH]; intros a b H; simpl; [exact H|].
  pose proof (load_row_same parse_time a b r H) as Hr.
  destruct (load_row parse_time a r), (load_row parse_time b r); simpl in Hr;
    try contradiction.
  - now apply IH.
  - exact Hr.
Qed.

Lemma load_rows_app (parse_time : string -> option datetime) (rows1 rows2 : list row)
      (st : loader) :
  load_rows parse_time st (rows1 ++ rows2)
  = match load_rows parse_time st rows1 with
    | Ok st' => load_rows parse_time st' rows2
    | Raise e => Raise e
    end.
Proof.
  revert st. induction rows1 as [|r rows1 IH]; intros st; simpl; [reflexivity|].
  destruct (load_row parse_time st r); [apply IH|reflexivity].
Qed.

Lemma load_search_seen (parse_time : string -> option datetime) (st st' : loader)
      (r : row) (raw p : string) :
  load_search parse_time st r raw = Ok st' ->
  Str.mem p (cookie_sizes_strings_processed st) = true ->
  Str.mem p (cookie_sizes_strings_processed st') = true.
Proof.
  by_load_search; intros [= <-] H; simpl; auto.
  rewrite H. apply orb_true_r.
Qed.

Lemma load_row_seen (parse_time : string -> option datetime) (st st' : loader)
      (r : row) (p : string) :
  load_row parse_time st r = Ok st' ->
  Str.mem p (cookie_sizes_strings_processed st) = true ->
  Str.mem p (cookie_sizes_strings_processed st') = true.
Proof.
  by_load_row.
  - intros H1 H2. eapply load_search_seen; [exact H1|exact H2].
  - intros [= <-] H. exact H.
  - apply load_search_seen.
  - discriminate.
Qed.

Lemma load_rows_seen (parse_time : string -> option datetime) (rows : list row)
      (st st' : loader) (p : string) :
  load_rows parse_time st rows = Ok st' ->
  Str.mem p (cookie_sizes_strings_processed st) = true ->
  Str.mem p (cookie_sizes_strings_processed st') = true.
Proof.
  revert st. induction rows as [|r rows IH]; simpl; intros st.
  - intros [= <-] H. exact H.
  - destruct (load_row parse_time st r) as [st1|e] eqn:E; [|discriminate].
    intros H1 H2. apply (IH st1 H1). eapply load_row_seen; eauto.
Qed.

Lemma mem_head (p : string) (seen : list string) : Str.mem p (p :: seen) = true.
Proof.
  simpl. now rewrite String.eqb_refl.
Qed.

(** A row with one begin marker, a match of the pattern and a declared total
    other than 0 leaves its stripped payload in the set. *)
Lemma load_row_registers (parse_time : string -> option datetime) (st st' : loader)
      (r : row) (raw : string) (m : captures) :
  _raw r = Some raw ->
  Str.count raw "BEGIN-COOKIE-SIZES" = 1%nat ->
  search cookie_log_regex raw = Some m ->
  (exists total, int_of_digits (group_of "total" m) = Ok total /\ total <> 0) ->
  load_row parse_time st r = Ok st' ->
  Str.mem (Str.strip (group_of "cookie_sizes" m)) (cookie_sizes_strings_processed st') = true.
Proof.
  intros Hraw Hcount Hm (total & Hint & Htot). unfold load_row. rewrite Hraw, Hcount.
  cbn [Nat.eqb Nat.ltb Nat.leb].
  unfold load_search. rewrite Hm, Hint.
  apply Z.eqb_neq in Htot. rewrite Htot.
  destruct (Str.mem _ _) eqn:Hmem.
  - intros [= <-]. exact Hmem.
  - destruct (parse_cookie_sizes _ _); [|discriminate].
    destruct (parser_parse parse_time (_time r)); [|discriminate].
    intros [= <-]. simpl cookie_sizes_strings_processed. apply mem_head.
Qed.

(** A row whose stripped payload is in the set changes neither the set nor
    the list of headers. *)
Lemma load_row_duplicate (parse_time : string -> option datetime) (st : loader)
      (r : row) (raw : string) (m : captures) :
  _raw r = Some raw ->
  search cookie_log_regex raw = Some m ->
  (String.length (group_of "total" m) <= max_str_digits)%nat ->
  Str.mem (Str.strip (group_of "cookie_sizes" m)) (cookie_sizes_strings_processed st) = true ->
  exists st', load_row parse_time st r = Ok st' /\ same_data st' st.
Proof.
  intros Hraw Hm Hlen Hmem. unfold load_row. rewrite Hraw.
  assert (S : forall st0, same_data st0 st ->
                          exists st', load_search parse_time st0 r raw = Ok st'
                                      /\ same_data st' st).
  { intros st0 H0. unfold load_search. rewrite Hm.
    rewrite (proj2 (int_of_digits_ok _ _) (conj eq_refl Hlen)).
    destruct (Str.int (group_of "total" m) =? 0); [eauto|].
    destruct H0 as [H1 H2]. rewrite H1, Hmem.
    eexists. split; [reflexivity|]. split; assumption. }
  destruct (Str.count raw "BEGIN-COOKIE-SIZES" =? 0)%nat.
  - apply S. split; reflexivity.
  - destruct (1 <? Str.count raw "BEGIN-COOKIE-SIZES")%nat.
    + eexists. split; [reflexivity|]. split; reflexivity.
    + apply S. split; reflexivity.
Qed.

Lemma same_outcome_headers (a b : result loader) :
  same_outcome a b ->
  match a with Ok st => Ok (cookie_headers st) | Raise e => Raise e end
  = match b with Ok st => Ok (cookie_headers st) | Raise e => Raise e end.
Proof.
  destruct a, b; simpl; try contradiction.
  - intros [_ H]. now rewrite H.
  - now intros ->.
Qed.

Lemma load_rows_duplicate (parse_time : string -> option datetime)
      (pre mid post : list row) (r1 r2 : row) (raw1 raw2 : string) (m1 m2 : captures) :
  _raw r1 = Some raw1 ->
  _raw r2 = Some raw2 ->
  Str.count raw1 "BEGIN-COOKIE-SIZES" = 1%nat ->
  search cookie_log_regex raw1 = Some m1 ->
  search cookie_log_regex raw2 = Some m2 ->
  (exists total1, int_of_digits (group_of "total" m1) = Ok total1 /\ total1 <> 0) ->
  (String.length (group_of "total" m2) <= max_str_digits)%nat ->
  group_of "cookie_sizes" m2 = group_of "cookie_sizes" m1 ->
  _load_csv parse_time (pre ++ r1 :: mid ++ r2 :: post)
  = _load_csv parse_time (pre ++ r1 :: mid ++ post).
Proof.
  intros Hraw1 Hraw2 Hcount Hm1 Hm2 Htot Hlen Hsame.
  unfold _load_csv. apply same_outcome_headers.
  rewrite !load_rows_app.
  destruct (load_rows parse_time loader_init pre) as [s0|e]; [|reflexivity].
  cbn [load_rows].
  destruct (load_row parse_time s0 r1) as [s1|e] eqn:E1; [|reflexivity].
  rewrite !load_rows_app.
  destruct (load_rows parse_time s1 mid) as [s2|e] eqn:E2; [|reflexivity].
  assert (Hmem : Str.mem (Str.strip (group_of "cookie_sizes" m2))
                         (cookie_sizes_strings_processed s2) = true).
  { rewrite Hsame. apply (load_rows_seen parse_time mid s1 s2 _ E2).
    exact (load_row_registers parse_time s0 s1 r1 raw1 m1 Hraw1 Hcount Hm1 Htot E1). }
  destruct (load_row_duplicate parse_time s2 r2 raw2 m2 Hraw2 Hm2 Hlen Hmem)
    as (s3 & E3 & H3).
  cbn [load_rows]. rewrite E3.
  now apply load_rows_same.
Qed.

(** A row that adds a header has one begin marker, a match of the pattern
    and a declared total other than 0. *)
Lemma load_row_accepts (parse_time : string -> option datetime) (st st' : loader) (r : row) :
  load_row parse_time st r = Ok st' ->
  cookie_headers st' <> cookie_headers st ->
  exists raw m,
    _raw r = Some raw
    /\ Str.count raw "BEGIN-COOKIE-SIZES" = 1%nat
    /\ search cookie_log_regex raw = Some m
    /\ exists total, int_of_digits (group_of "total" m) = Ok total /\ total <> 0.
Proof.
  by_load_row.
  - apply Nat.eqb_eq in Hzero. unfold load_search.
    rewrite (count_zero_search _ Hzero). intros [= <-]. simpl. contradiction.
  - intros [= <-]. simpl. contradiction.
  - apply Nat.eqb_neq in Hzero. apply Nat.ltb_ge in Hmany.
    by_load_search; intros [= <-]; simpl; try contradiction.
    intros _. exists raw_cookie_log, m. apply Z.eqb_neq in Htotal.
    split; [reflexivity|]. split; [lia|]. split; [exact Hsearch|]. now exists total.
  - discriminate.
Qed.

(** C5, as amended.  When a row with one begin marker and a declared total
    that [int] accepts and that is not 0 is followed, anywhere later in the
    batch, by a row with the same payload text and a total within the limit
    of [int], the later row is dropped: the batch loads as it does without
    that row.  A batch of a row twice, where the row alone gives a record,
    gives that one record.  The set of payloads is kept across the rows of
    the batch. *)
Theorem duplicate_payload_dropped (parse_time : string -> option datetime)
        (pre mid post : list row) (r1 r2 : row) (raw1 raw2 : string) (m1 m2 : captures) :
  _raw r1 = Some raw1 ->
  _raw r2 = Some raw2 ->
  Str.count raw1 "BEGIN-COOKIE-SIZES" = 1%nat ->
  search cookie_log_regex raw1 = Some m1 ->
  search cookie_log_regex raw2 = Some m2 ->
  (exists total1, int_of_digits (group_of "total" m1) = Ok total1 /\ total1 <> 0) ->
  (String.length (group_of "total" m2) <= max_str_digits)%nat ->
  group_of "cookie_sizes" m2 = group_of "cookie_sizes" m1 ->
  _load_csv parse_time (pre ++ r1 :: mid ++ r2 :: post)
  = _load_csv parse_time (pre ++ r1 :: mid ++ post)
  /\ (forall r h,
         _load_csv parse_time [r] = Ok [h] -> _load_csv parse_time [r; r] = Ok [h]).
Proof.
  intros Hraw1 Hraw2 Hcount Hm1 Hm2 Htot Hlen Hsame. split.
  - eapply load_rows_duplicate; eauto.
  - intros r h Hone. rewrite <- Hone.
    assert (A : exists raw m,
               _raw r = Some raw
               /\ Str.count raw "BEGIN-COOKIE-SIZES" = 1%nat
               /\ search cookie_log_regex raw = Some m
               /\ exists total, int_of_digits (group_of "total" m) = Ok total
                                /\ total <> 0).
    { unfold _load_csv in Hone. cbn [load_rows] in Hone.
      destruct (load_row parse_time loader_init r) as [st'|e] eqn:E; [|discriminate].
      injection Hone as Hh.
      apply (load_row_accepts parse_time loader_init st' r E).
      rewrite Hh. simpl. discriminate. }
    destruct A as (raw & m & Hr & Hc & Hm & Ht).
    assert (Hl : (String.length (group_of "total" m) <= max_str_digits)%nat).
    { destruct Ht as (total & Hint & _). apply int_of_digits_ok in Hint. tauto. }
    exact (load_rows_duplicate parse_time [] [] [] r r raw raw m m Hr Hr Hc Hm Hm Ht Hl
                               eq_refl).
Qed.

Lemma duplicate_payload_dropped_witness :
  let parse_time := fun _ : string => Some 0 in
  let r := {| _raw := Some "BEGIN-COOKIE-SIZES(total=30) a: 1, bb: 22 END-COOKIE-SIZES";
              _time := Some "2021-06-01 10:00:00"; index := Some "prod" |} in
  let other := {| _raw := Some "BEGIN-COOKIE-SIZES(total=75) csrftoken: 64 END-COOKIE-SIZES";
                  _time := Some "2021-06-01 10:00:01"; index := Some "prod" |} in
  _load_csv parse_time [r; other; r] = _load_csv parse_time [r; other]
  /\ exists h1 h2, _load_csv parse_time [r; other; r] = Ok [h1; h2].
Proof.
  intros parse_time r other. split.
  - refine (proj1 (duplicate_payload_dropped parse_time [] [other] [] r r _ _ _ _
                     eq_refl eq_refl _ _ _ _ _ _)).
    + vm_compute. reflexivity.
    + vm_compute. reflexivity.
    + vm_compute. reflexivity.
    + exists 30. split; [vm_compute; reflexivity|discriminate].
    + apply Nat.leb_le. vm_compute. reflexivity.
    + reflexivity.
  - eexists. eexists. vm_compute. reflexivity.
Defined.

(** C5 as stated fails when the earlier row declares a total of 0: such a
    row is passed over before its payload is entered in the set, so a batch
    of that row twice gives no record, and a later row with the same payload
    and another total is loaded. *)
Lemma zero_total_payload_not_seen :
  let parse_time := fun _ : string => Some 0 in
  let r0 := {| _raw := Some "BEGIN-COOKIE-SIZES(total=0) a: 1 END-COOKIE-SIZES";
               _time := Some "2021-06-01 10:00:00"; index := Some "prod" |} in
  let r7 := {| _raw := Some "BEGIN-COOKIE-SIZES(total=7) a: 1 END-COOKIE-SIZES";
               _time := Some "2021-06-01 10:00:01"; index := Some "prod" |} in
  _load_csv parse_time [r0; r0] = Ok []
  /\ option_map (group_of "cookie_sizes")
       (search cookie_log_regex "BEGIN-COOKIE-SIZES(total=0) a: 1 END-COOKIE-SIZES")
     = option_map (group_of "cookie_sizes")
         (search cookie_log_regex "BEGIN-COOKIE-SIZES(total=7) a: 1 END-COOKIE-SIZES")
  /\ _load_csv parse_time [r0; r7]
     = Ok [ {| hdr_datetime := 0; hdr_env := Some "prod"; cookie_header_size := 7;
               cookie_header_size_computed := 3; cookie_sizes := [("a", 1)] |} ].
Proof.
  repeat split; vm_compute; reflexivity.
Qed.

(** * Further properties *)

(** ** The loader: rows that are passed over, order, payloads *)

Lemma same_data_refl (a : loader) : same_data a a.
Proof.
  split; reflexivity.
Qed.

Lemma load_row_passed_over (parse_time : string -> option datetime) (st : loader) (r : row) :
  passed_over r ->
  exists st', load_row parse_time st r = Ok st' /\ same_data st' st.
Proof.
  intros (raw & Hraw & H). unfold load_row. rewrite Hraw.
  assert (S : (search cookie_log_regex raw = None
               \/ exists m, search cookie_log_regex raw = Some m
                            /\ int_of_digits (group_of "total" m) = Ok 0) ->
              forall st0, same_data st0 st ->
                          exists st', load_search parse_time st0 r raw = Ok st'
                                      /\ same_data st' st).
  { intros [Hn|(m & Hm & Ht)] st0 H0; unfold load_search.
    - rewrite Hn. eexists. split; [reflexivity|exact H0].
    - rewrite Hm, Ht. cbn [Z.eqb]. eauto. }
  destruct (Str.count raw "BEGIN-COOKIE-SIZES" =? 0)%nat eqn:Hzero.
  - apply Nat.eqb_eq in Hzero. apply S; [|split; reflexivity].
    left. now apply count_zero_search.
  - destruct (1 <? Str.count raw "BEGIN-COOKIE-SIZES")%nat eqn:Hmany.
    + eexists. split; [reflexivity|split; reflexivity].
    + apply Nat.ltb_ge in Hmany. apply S; [|apply same_data_refl].
      destruct H as [H|H]; [lia|exact H].
Qed.

(** X1.  A row with more than one begin marker, a row on which the pattern
    of a log message does not match (no marker, no end marker, no total) and
    a row with a declared total of 0 have no effect on what the loader
    returns, wherever they stand in the batch. *)
Theorem passed_over_row_has_no_effect (parse_time : string -> option datetime)
        (pre post : list row) (r : row) :
  passed_over r ->
  _load_csv parse_time (pre ++ r :: post) = _load_csv parse_time (pre ++ post).
Proof.
  intros H. unfold _load_csv. apply same_outcome_headers.
  rewrite !load_rows_app.
  destruct (load_rows parse_time loader_init pre) as [s0|e]; [|reflexivity].
  cbn [load_rows].
  destruct (load_row_passed_over parse_time s0 r H) as (s1 & E & Hs).
  rewrite E. now apply load_rows_same.
Qed.

Lemma passed_over_row_has_no_effect_witness :
  let parse_time := fun _ : string => Some 0 in
  let good := {| _raw := Some "BEGIN-COOKIE-SIZES(total=30) a: 1, bb: 22 END-COOKIE-SIZES";
                 _time := Some "2021-06-01 10:00:00"; index := Some "prod" |} in
  let twice := {| _raw := Some "BEGIN-COOKIE-SIZES(total=9) a: 1 END-COOKIE-SIZES BEGIN-COOKIE-SIZES";
                  _time := Some "2021-06-01 10:00:01"; index := Some "prod" |} in
  let open := {| _raw := Some "BEGIN-COOKIE-SIZES(total=9) a: 1";
                 _time := None; index := None |} in
  let zero := {| _raw := Some "BEGIN-COOKIE-SIZES(total=0) c: 5 END-COOKIE-SIZES";
                 _time := None; index := None |} in
  _load_csv parse_time [twice; good] = _load_csv parse_time [good]
  /\ _load_csv parse_time [good; open] = _load_csv parse_time [good]
  /\ _load_csv parse_time [zero; good] = _load_csv parse_time [good].
Proof.
  intros parse_time good twice open zero. split; [|split].
  - apply (passed_over_row_has_no_effect parse_time [] [good] twice).
    eexists. split; [reflexivity|]. left. vm_compute. lia.
  - apply (passed_over_row_has_no_effect parse_time [good] [] open).
    eexists. split; [reflexivity|]. right. left. vm_compute. reflexivity.
  - apply (passed_over_row_has_no_effect parse_time [] [good] zero).
    eexists. split; [reflexivity|]. right. right. eexists.
    split; vm_compute; reflexivity.
Defined.

Lemma load_search_step (parse_time : string -> option datetime) (st st' : loader)
      (r : row) (raw : string) :
  _raw r = Some raw ->
  load_search parse_time st r raw = Ok st' ->
  (cookie_headers st' = cookie_headers st
   /\ cookie_sizes_strings_processed st' = cookie_sizes_strings_processed st)
  \/ exists h p,
      cookie_headers st' = (cookie_headers st ++ [h])%list
      /\ cookie_sizes_strings_processed st' = p :: cookie_sizes_strings_processed st
      /\ Str.mem p (cookie_sizes_strings_processed st) = false
      /\ record_of parse_time r h.
Proof.
  intros Hraw. by_load_search; intros [= <-]; simpl; auto.
  right. eexists. eexists. split; [reflexivity|]. split; [reflexivity|].
  split; [exact Hmem|].
  unfold parser_parse in Hparse.
  destruct (_time r) as [t|] eqn:Ht; [|discriminate].
  destruct (parse_time t) as [d'|] eqn:Hd; [|discriminate].
  injection Hparse as ->.
  apply int_of_digits_ok in Hint. destruct Hint as [Hint _].
  apply parse_cookie_sizes_pure in Hfrag. subst parsed.
  exists raw, m, t. simpl. apply Z.eqb_neq in Htotal.
  split; [exact Hraw|]. split; [exact Hsearch|]. split; [exact Ht|].
  split; [exact Hd|]. split; [reflexivity|]. split; [exact Hint|].
  split; [exact Htotal|]. apply parse_cookie_sizes_fst.
Qed.

Lemma load_row_step (parse_time : string -> option datetime) (st st' : loader) (r : row) :
  load_row parse_time st r = Ok st' ->
  (cookie_headers st' = cookie_headers st
   /\ cookie_sizes_strings_processed st' = cookie_sizes_strings_processed st)
  \/ exists h p,
      cookie_headers st' = (cookie_headers st ++ [h])%list
      /\ cookie_sizes_strings_processed st' = p :: cookie_sizes_strings_processed st
      /\ Str.mem p (cookie_sizes_strings_processed st) = false
      /\ record_of parse_time r h.
Proof.
  by_load_row.
  - intros H. exact (load_search_step parse_time _ st' r raw_cookie_log Hraw H).
  - intros [= <-]. left. split; reflexivity.
  - now apply load_search_step.
  - discriminate.
Qed.

Lemma load_rows_steps (parse_time : string -> option datetime) (rows : list row)
      (st st' : loader) :
  load_rows parse_time st rows = Ok st' ->
  exists accepted new,
    subsequence accepted rows
    /\ cookie_headers st' = (cookie_headers st ++ new)%list
    /\ Forall2 (record_of parse_time) accepted new.
Proof.
  revert st. induction rows as [|r rows IH]; simpl; intros st.
  - intros [= <-]. exists [], []. repeat split; [constructor|now rewrite app_nil_r|constructor].
  - destruct (load_row parse_time st r) as [st1|e] eqn:E; [|discriminate].
    intros H. destruct (IH st1 H) as (acc & new & Hsub & Hh & Hrec).
    destruct (load_row_step parse_time st st1 r E) as [[E1 _]|(h & p & E1 & _ & _ & Hr)].
    + exists acc, new. split; [now constructor|]. split; [now rewrite Hh, E1|exact Hrec].
    + exists (r :: acc), (h :: new). split; [now constructor|].
      split; [rewrite Hh, E1, <- app_assoc; reflexivity|now constructor].
Qed.

(** X2.  The records that the loader returns come from a selection of the
    rows, one record for each selected row and in the order of the rows; a
    record takes its time from the time column of its row, its environment
    from the index column, its declared size from the total of the log
    message and its cookies from the fragments of the payload. *)
Theorem records_follow_rows (parse_time : string -> option datetime) (rows : list row)
        (headers : list cookie_header) :
  _load_csv parse_time rows = Ok headers ->
  exists accepted,
    subsequence accepted rows /\ Forall2 (record_of parse_time) accepted headers.
Proof.
  unfold _load_csv.
  destruct (load_rows parse_time loader_init rows) as [st|e] eqn:E; [|discriminate].
  intros [= <-].
  destruct (load_rows_steps parse_time rows loader_init st E) as (acc & new & Hs & Hh & Hr).
  exists acc. split; [exact Hs|]. rewrite Hh. exact Hr.
Qed.

Lemma records_follow_rows_witness :
  let parse_time := fun t : string => Some (Str.int t) in
  let rows :=
    [ {| _raw := Some "BEGIN-COOKIE-SIZES(total=30) a: 1, bb: 22 END-COOKIE-SIZES";
         _time := Some "7"; index := Some "prod" |};
      {| _raw := Some "GET /dashboard 200"; _time := Some "8"; index := Some "prod" |};
      {| _raw := Some "BEGIN-COOKIE-SIZES(total=75) csrftoken: 64 END-COOKIE-SIZES";
         _time := Some "9"; index := Some "stage" |} ] in
  exists h1 h2 accepted,
    _load_csv parse_time rows = Ok [h1; h2]
    /\ hdr_datetime h1 = 7 /\ hdr_datetime h2 = 9
    /\ subsequence accepted rows
    /\ Forall2 (record_of parse_time) accepted [h1; h2].
Proof.
  intros parse_time rows.
  destruct (_load_csv parse_time rows) as [hs|e] eqn:E; [|vm_compute in E; discriminate].
  destruct (records_follow_rows parse_time rows hs E) as (acc & Hs & Hr).
  vm_compute in E. injection E as <-.
  eexists. eexists. exists acc.
  split; [reflexivity|]. split; [reflexivity|]. split; [reflexivity|].
  split; [exact Hs|exact Hr].
Defined.

Lemma load_rows_grow (parse_time : string -> option datetime) (rows : list row)
      (st st' : loader) :
  load_rows parse_time st rows = Ok st' ->
  exists new,
    cookie_headers st' = (cookie_headers st ++ new)%list
    /\ (List.length new <= List.length rows)%nat.
Proof.
  revert st. induction rows as [|r rows IH]; simpl; intros st.
  - intros [= <-]. exists []. split; [now rewrite app_nil_r|simpl; lia].
  - destruct (load_row parse_time st r) as [st1|e] eqn:E; [|discriminate].
    intros H. destruct (IH st1 H) as (new & Hh & Hl).
    destruct (load_row_step parse_time st st1 r E) as [[E1 _]|(h & p & E1 & _)].
    + exists new. split; [now rewrite Hh, E1|lia].
    + exists (h :: new). split; [rewrite Hh, E1, <- app_assoc; reflexivity|simpl; lia].
Qed.

(** X3.  Loading a batch that goes on after [rows1] keeps what [rows1] alone
    gives: an exception of [rows1] is the exception of the longer batch, and
    the records of the longer batch begin with the records of [rows1],
    followed by at most one record for each further row. *)
Theorem load_csv_of_longer_batch (parse_time : string -> option datetime)
        (rows1 rows2 : list row) :
  (forall e, _load_csv parse_time rows1 = Raise e ->
             _load_csv parse_time (rows1 ++ rows2) = Raise e)
  /\ (forall headers,
         _load_csv parse_time (rows1 ++ rows2) = Ok headers ->
         exists headers1 headers2,
           _load_csv parse_time rows1 = Ok headers1
           /\ headers = (headers1 ++ headers2)%list
           /\ (List.length headers2 <= List.length rows2)%nat).
Proof.
  unfold _load_csv. rewrite load_rows_app. split.
  - intros e. destruct (load_rows parse_time loader_init rows1); [discriminate|].
    intros [= ->]. reflexivity.
  - intros headers.
    destruct (load_rows parse_time loader_init rows1) as [s1|e]; [|discriminate].
    destruct (load_rows parse_time s1 rows2) as [s2|e] eqn:E; [|discriminate].
    intros [= <-].
    destruct (load_rows_grow parse_time rows2 s1 s2 E) as (new & Hh & Hl).
    exists (cookie_headers s1), new. auto.
Qed.

Lemma load_csv_of_longer_batch_witness :
  let parse_time := fun t : string => if String.eqb t "" then None else Some 0 in
  let good := {| _raw := Some "BEGIN-COOKIE-SIZES(total=30) a: 1, bb: 22 END-COOKIE-SIZES";
                 _time := Some "2021-06-01 10:00:00"; index := Some "prod" |} in
  let bad := {| _raw := Some "BEGIN-COOKIE-SIZES(total=75) csrftoken: 64 END-COOKIE-SIZES";
                _time := Some ""; index := Some "prod" |} in
  _load_csv parse_time ([good; bad] ++ [good]) = Raise ParserError
  /\ exists headers1 headers2 : list cookie_header,
      _load_csv parse_time [good] = Ok headers1
      /\ (List.length headers2 <= 1)%nat.
Proof.
  intros parse_time good bad.
  destruct (load_csv_of_longer_batch parse_time [good; bad] [good]) as [Hraise _].
  destruct (load_csv_of_longer_batch parse_time [good] [good]) as [_ Hok].
  split.
  - apply Hraise. vm_compute. reflexivity.
  - destruct (_load_csv parse_time ([good] ++ [good])) as [hs|e] eqn:E;
      [|vm_compute in E; discriminate].
    destruct (Hok hs eq_refl) as (h1 & h2 & E1 & _ & Hl).
    exists h1, h2. split; [exact E1|exact Hl].
Defined.

Lemma mem_In (s : string) (l : list string) : Str.mem s l = true <-> In s l.
Proof.
  induction l as [|t l IH]; simpl; [split; [discriminate|tauto]|].
  rewrite orb_true_iff, IH, String.eqb_eq. split; intros [H|H]; auto.
Qed.

Lemma load_rows_payloads (parse_time : string -> option datetime) (rows : list row)
      (st st' : loader) :
  load_rows parse_time st rows = Ok st' ->
  NoDup (cookie_sizes_strings_processed st) ->
  List.length (cookie_headers st) = List.length (cookie_sizes_strings_processed st) ->
  NoDup (cookie_sizes_strings_processed st')
  /\ List.length (cookie_headers st') = List.length (cookie_sizes_strings_processed st').
Proof.
  revert st. induction rows as [|r rows IH]; simpl; intros st.
  - intros [= <-]. auto.
  - destruct (load_row parse_time st r) as [st1|e] eqn:E; [|discriminate].
    intros H Hn Hl. apply (IH st1 H).
    + destruct (load_row_step parse_time st st1 r E) as [[_ E2]|(h & p & _ & E2 & Hm & _)];
        rewrite E2; [exact Hn|].
      constructor; [|exact Hn]. intros Hin. apply mem_In in Hin. congruence.
    + destruct (load_row_step parse_time st st1 r E) as [[E1 E2]|(h & p & E1 & E2 & _)];
        rewrite E1, E2; [exact Hl|].
      rewrite length_app. simpl. lia.
Qed.

(** X4.  When the loop over the rows ends, the set of payloads holds each
    payload once and has as many payloads as there are records: the loader
    returns one record for each distinct stripped payload that it took
    in. *)
Theorem one_record_per_payload (parse_time : string -> option datetime) (rows : list row)
        (st : loader) :
  load_rows parse_time loader_init rows = Ok st ->
  NoDup (cookie_sizes_strings_processed st)
  /\ List.length (cookie_headers st) = List.length (cookie_sizes_strings_processed st).
Proof.
  intros H. apply (load_rows_payloads parse_time rows loader_init st H).
  - constructor.
  - reflexivity.
Qed.

Lemma one_record_per_payload_witness :
  let parse_time := fun _ : string => Some 0 in
  let r := {| _raw := Some "BEGIN-COOKIE-SIZES(total=30) a: 1, bb: 22 END-COOKIE-SIZES";
              _time := Some "2021-06-01 10:00:00"; index := Some "prod" |} in
  let r' := {| _raw := Some "BEGIN-COOKIE-SIZES(total=31)   a: 1, bb: 22 END-COOKIE-SIZES";
               _time := Some "2021-06-01 10:00:05"; index := Some "stage" |} in
  exists st,
    load_rows parse_time loader_init [r; r'; r] = Ok st
    /\ cookie_sizes_strings_processed st = ["a: 1, bb: 22"]
    /\ List.length (cookie_headers st) = List.length (cookie_sizes_strings_processed st).
Proof.
  intros parse_time r r'.
  destruct (load_rows parse_time loader_init [r; r'; r]) as [st|e] eqn:E;
    [|vm_compute in E; discriminate].
  exists st. split; [reflexivity|].
  split; [vm_compute in E; injection E as <-; reflexivity|].
  apply (one_record_per_payload parse_time [r; r'; r] st E).
Defined.

(** ** The loader: what a record holds *)

Lemma star_inv {R : Type} (cs : charset) (s : string) (k : string -> option R) (r : R) :
  star R cs s k = Some r ->
  exists pre s', s = pre ++ s' /\ all_chars (inset cs) pre = true /\ k s' = Some r.
Proof.
  induction s as [|c s IH]; simpl; intros H.
  - exists "", "". auto.
  - destruct (inset cs c) eqn:Ec.
    + destruct (star R cs s k) as [r'|] eqn:Es.
      * injection H as ->. destruct (IH eq_refl) as (pre & s' & -> & Hp & Hk).
        exists (String c pre), s'. simpl. rewrite Ec, Hp. auto.
      * exists "", (String c s). auto.
    + exists "", (String c s). auto.
Qed.

Lemma length_append (a b : string) :
  String.length (a ++ b) = (String.length a + String.length b)%nat.
Proof.
  induction a as [|c a IH]; simpl; [reflexivity|now rewrite IH].
Qed.

Lemma take_prefix (pre s' : string) :
  Str.take (String.length (pre ++ s') - String.length s') (pre ++ s') = pre.
Proof.
  rewrite length_append.
  replace (String.length pre + String.length s' - String.length s')%nat
    with (String.length pre) by lia.
  induction pre as [|c pre IH]; simpl.
  - destruct s'; reflexivity.
  - now rewrite IH.
Qed.

Lemma rmatch_size_inv (s : string) (m : captures) :
  rmatch cookie_size_regex s = Some m ->
  exists name size,
    m = [("size", size); ("name", name)]
    /\ all_chars (inset CDot) name = true
    /\ all_chars Str.isdigit size = true.
Proof.
  unfold rmatch, cookie_size_regex, seq. cbn [fold_right run]. intros H.
  apply star_inv in H. destruct H as (name & s1 & -> & Hname & H).
  destruct (Str.startswith ": " s1); [|discriminate].
  destruct (Str.drop (String.length ": ") s1) as [|c s2] eqn:Ed; [discriminate|].
  destruct (inset CDigit c) eqn:Ec; [|discriminate].
  apply star_inv in H. destruct H as (digits & s3 & -> & Hdigits & H).
  cbn [Str.startswith] in H. injection H as <-.
  exists name, (String c digits). split; [|split].
  - f_equal.
    + f_equal. exact (take_prefix (String c digits) s3).
    + f_equal. f_equal. exact (take_prefix name s1).
  - exact Hname.
  - simpl. simpl in Ec. now rewrite Ec.
Qed.

Lemma search_size_inv (s : string) (m : captures) :
  search cookie_size_regex s = Some m ->
  exists name size,
    m = [("size", size); ("name", name)]
    /\ all_chars (inset CDot) name = true
    /\ all_chars Str.isdigit size = true.
Proof.
  induction s as [|c s IH]; cbn [search].
  - destruct (rmatch cookie_size_regex "") eqn:E; [|discriminate].
    intros [= <-]. now apply rmatch_size_inv in E.
  - destruct (rmatch cookie_size_regex (String c s)) eqn:E.
    + intros [= <-]. now apply (rmatch_size_inv (String c s)).
    + exact IH.
Qed.

Lemma rmatch_log_inv (s : string) (m : captures) :
  rmatch cookie_log_regex s = Some m ->
  exists total payload,
    m = [("cookie_sizes", payload); ("total", total)]
    /\ all_chars Str.isdigit total = true
    /\ all_chars (inset CDot) payload = true.
Proof.
  unfold rmatch, cookie_log_regex, seq. cbn [fold_right run]. intros H.
  destruct (Str.startswith "BEGIN-COOKIE-SIZES" s); [|discriminate].
  destruct (Str.startswith "(total=" _); [|discriminate].
  destruct (Str.drop (String.length "(total=") _) as [|c s2] eqn:Ed; [discriminate|].
  destruct (inset CDigit c) eqn:Ec; [|discriminate].
  apply star_inv in H. destruct H as (digits & s3 & -> & Hdigits & H).
  destruct (Str.startswith ")" s3); [|discriminate].
  apply star_inv in H. destruct H as (payload & s4 & E4 & Hpayload & H).
  destruct (Str.startswith "END-COOKIE-SIZES" s4); [|discriminate].
  cbn [Str.startswith] in H. injection H as <-.
  exists (String c digits), payload. split; [|split].
  - simpl in E4. rewrite E4. f_equal.
    + f_equal. exact (take_prefix payload s4).
    + f_equal. f_equal. exact (take_prefix (String c digits) s3).
  - simpl. simpl in Ec. now rewrite Ec.
  - exact Hpayload.
Qed.

Lemma search_log_inv (s : string) (m : captures) :
  search cookie_log_regex s = Some m ->
  exists total payload,
    m = [("cookie_sizes", payload); ("total", total)]
    /\ all_chars Str.isdigit total = true
    /\ all_chars (inset CDot) payload = true.
Proof.
  induction s as [|c s IH]; cbn [search].
  - destruct (rmatch cookie_log_regex "") eqn:E; [|discriminate].
    intros [= <-]. now apply rmatch_log_inv in E.
  - destruct (rmatch cookie_log_regex (String c s)) eqn:E.
    + intros [= <-]. now apply (rmatch_log_inv (String c s)).
    + exact IH.
Qed.

Lemma int_from_nonneg (s : string) (acc : Z) :
  all_chars Str.isdigit s = true -> 0 <= acc -> 0 <= Str.int_from acc s.
Proof.
  revert acc. induction s as [|c s IH]; cbn [all_chars Str.int_from]; intros acc H Hacc;
    [exact Hacc|].
  apply andb_true_iff in H. destruct H as [Hc Hs].
  apply IH; [exact Hs|].
  unfold Str.isdigit in Hc. apply andb_true_iff in Hc. destruct Hc as [Hc _].
  apply Nat.leb_le in Hc. lia.
Qed.

Lemma int_nonneg (s : string) : all_chars Str.isdigit s = true -> 0 <= Str.int s.
Proof.
  intros H. apply int_from_nonneg; [exact H|lia].
Qed.

Lemma dict_set_forall_item {V : Type} (P : string * V -> Prop) (k : string) (v : V)
      (d : list (string * V)) :
  Forall P d -> P (k, v) -> Forall P (Dict.set k v d).
Proof.
  intros Hd Hv. induction Hd as [|[k' v'] d Hx Hd IH]; simpl.
  - constructor; auto.
  - destruct (String.eqb k' k) eqn:E; constructor; auto.
    apply String.eqb_eq in E. now subst k'.
Qed.

Lemma dict_set_keys {V : Type} (k k' : string) (v : V) (d : list (string * V)) :
  In k' (map fst (Dict.set k v d)) <-> k' = k \/ In k' (map fst d).
Proof.
  induction d as [|[k0 v0] d IH]; simpl.
  - split; intros [H|H]; try contradiction; auto.
  - destruct (String.eqb k0 k) eqn:E; simpl.
    + apply String.eqb_eq in E. subst k0.
      split; [intros [H|H]; auto|intros [H|[H|H]]; auto].
    + rewrite IH. tauto.
Qed.

Lemma dict_set_nodup {V : Type} (k : string) (v : V) (d : list (string * V)) :
  NoDup (map fst d) -> NoDup (map fst (Dict.set k v d)).
Proof.
  induction d as [|[k0 v0] d IH]; simpl; intros H.
  - constructor; [tauto|constructor].
  - inversion H as [|x l Hn Hd]; subst.
    destruct (String.eqb k0 k) eqn:E; simpl.
    + now constructor.
    + constructor; [|now apply IH].
      rewrite dict_set_keys. intros [->|Hin]; [|contradiction].
      now rewrite String.eqb_refl in E.
Qed.

Lemma dict_set_length {V : Type} (k : string) (v : V) (d : list (string * V)) :
  (List.length (Dict.set k v d) <= S (List.length d))%nat.
Proof.
  induction d as [|[k0 v0] d IH]; simpl; [lia|].
  destruct (String.eqb k0 k); simpl; lia.
Qed.

Lemma parse_cookie_size_ok (acc : list (string * Z) * list log_entry) (fragment : string) :
  Forall item_ok (fst acc) -> NoDup (map fst (fst acc)) ->
  Forall item_ok (fst (parse_cookie_size acc fragment))
  /\ NoDup (map fst (fst (parse_cookie_size acc fragment)))
  /\ (List.length (fst (parse_cookie_size acc fragment)) <= S (List.length (fst acc)))%nat.
Proof.
  intros Hok Hnd. unfold parse_cookie_size.
  destruct (search cookie_size_regex fragment) as [m|] eqn:E; simpl; [|auto].
  destruct (search_size_inv fragment m E) as (name & size & -> & Hname & Hsize).
  split; [|split].
  - apply dict_set_forall_item; [exact Hok|].
    split; [exact Hname|]. simpl. now apply int_nonneg.
  - now apply dict_set_nodup.
  - apply dict_set_length.
Qed.

Lemma parse_cookie_sizes_ok (fragments : list string)
      (acc : list (string * Z) * list log_entry) :
  Forall item_ok (fst acc) -> NoDup (map fst (fst acc)) ->
  Forall item_ok (fst (fold_left parse_cookie_size fragments acc))
  /\ NoDup (map fst (fst (fold_left parse_cookie_size fragments acc)))
  /\ (List.length (fst (fold_left parse_cookie_size fragments acc))
      <= List.length (fst acc) + List.length fragments)%nat.
Proof.
  revert acc. induction fragments as [|f fragments IH]; simpl; intros acc Hok Hnd.
  - split; [exact Hok|split; [exact Hnd|lia]].
  - destruct (parse_cookie_size_ok acc f Hok Hnd) as (H1 & H2 & H3).
    destruct (IH _ H1 H2) as (H4 & H5 & H6).
    split; [exact H4|split; [exact H5|lia]].
Qed.

Lemma record_of_ok (parse_time : string -> option datetime) (r : row) (h : cookie_header) :
  record_of parse_time r h ->
  0 < cookie_header_size h
  /\ Forall item_ok (cookie_sizes h)
  /\ NoDup (map fst (cookie_sizes h)).
Proof.
  intros (raw & m & t & _ & Hm & _ & _ & _ & Hsize & Hnz & Hc).
  destruct (search_log_inv raw m Hm) as (total & payload & -> & Htotal & _).
  split.
  - assert (0 <= cookie_header_size h) by (rewrite Hsize; now apply int_nonneg). lia.
  - rewrite Hc.
    destruct (parse_cookie_sizes_ok
                (Str.split (Str.strip (group_of "cookie_sizes"
                                                 [("cookie_sizes", payload); ("total", total)]))
                           ", ")
                ([], [])) as (H1 & H2 & _); simpl; auto; constructor.
Qed.

Lemma forall2_in_right {A B : Type} (P : A -> B -> Prop) (l : list A) (l' : list B) (b : B) :
  Forall2 P l l' -> In b l' -> exists a, In a l /\ P a b.
Proof.
  induction 1 as [|x y l l' Hxy _ IH]; simpl; [contradiction|].
  intros [<-|Hin].
  - exists x. auto.
  - destruct (IH Hin) as (a & Ha & Hp). exists a. auto.
Qed.

Lemma subsequence_in {A : Type} (sub l : list A) (x : A) :
  subsequence sub l -> In x sub -> In x l.
Proof.
  induction 1 as [|y sub l Hs IH|y sub l Hs IH]; simpl; intros Hin; auto.
  destruct Hin as [Hin|Hin]; auto.
Qed.

(** X5.  Every record that the loader returns has a declared size above 0
    and a computed size that is not negative, and its cookies have names
    that are distinct and hold no line feed and sizes that are not
    negative. *)
Theorem loaded_record_well_formed (parse_time : string -> option datetime)
        (rows : list row) (headers : list cookie_header) (h : cookie_header) :
  _load_csv parse_time rows = Ok headers ->
  In h headers ->
  0 < cookie_header_size h
  /\ 0 <= cookie_header_size_computed h
  /\ NoDup (map fst (cookie_sizes h))
  /\ forall name size,
      In (name, size) (cookie_sizes h) -> no_line_feed name = true /\ 0 <= size.
Proof.
  unfold _load_csv.
  destruct (load_rows parse_time loader_init rows) as [st|e] eqn:E; [|discriminate].
  intros [= <-] Hin.
  destruct (load_rows_steps parse_time rows loader_init st E) as (acc & new & _ & Hh & Hr).
  simpl in Hh. rewrite Hh in Hin.
  destruct (forall2_in_right _ _ _ _ Hr Hin) as (r & _ & Hrec).
  destruct (record_of_ok parse_time r h Hrec) as (H1 & H2 & H3).
  split; [exact H1|]. split.
  - pose proof (load_rows_computed parse_time rows loader_init st (Forall_nil _) E) as F.
    rewrite Forall_forall in F. rewrite Hh in F. rewrite (F h Hin). lia.
  - split; [exact H3|].
    intros name size Hi. rewrite Forall_forall in H2. exact (H2 _ Hi).
Qed.

Lemma loaded_record_well_formed_witness :
  let parse_time := fun _ : string => Some 0 in
  let r := {| _raw := Some "BEGIN-COOKIE-SIZES(total=30) a: 1, bb: 22, a: 5 END-COOKIE-SIZES";
              _time := Some "2021-06-01 10:00:00"; index := Some "prod" |} in
  let h := {| hdr_datetime := 0; hdr_env := Some "prod"; cookie_header_size := 30;
              cookie_header_size_computed := 34;
              cookie_sizes := [("a", 5); ("bb", 22)] |} in
  _load_csv parse_time [r] = Ok [h]
  /\ 0 < cookie_header_size h
  /\ NoDup (map fst (cookie_sizes h)).
Proof.
  intros parse_time r h.
  assert (E : _load_csv parse_time [r] = Ok [h]) by (vm_compute; reflexivity).
  split; [exact E|].
  destruct (loaded_record_well_formed parse_time [r] [h] h E (or_introl eq_refl))
    as (H1 & _ & H3 & _).
  split; [exact H1|exact H3].
Defined.

(** ** The aggregation: what an entry holds *)

Lemma process_items_entry (key : string) (h : cookie_header) (items : list (string * Z))
      (p : processed) :
  Dict.get key (fold_left (process_cookie h) items p)
  = entry_from key (map (fun item => (h, snd item)) (filter (named key) items))
               (Dict.get key p).
Proof.
  revert p. induction items as [|item items IH]; intros p; [reflexivity|].
  cbn [fold_left filter]. rewrite IH. unfold process_cookie at 1. unfold named at 2.
  destruct (String.eqb (normalize_name (fst item)) key) eqn:E.
  - apply String.eqb_eq in E. rewrite E, dict_get_set_same. reflexivity.
  - apply String.eqb_neq in E. now rewrite dict_get_set_other.
Qed.

Lemma entry_from_app (key : string) (l1 l2 : list (cookie_header * Z))
      (old : option processed_cookie) :
  entry_from key (l1 ++ l2) old = entry_from key l2 (entry_from key l1 old).
Proof.
  unfold entry_from. apply fold_left_app.
Qed.

Lemma process_headers_entry (key : string) (headers : list cookie_header) (p : processed) :
  Dict.get key (fold_left process_header headers p)
  = entry_from key (contributions key headers) (Dict.get key p).
Proof.
  revert p. induction headers as [|h headers IH]; intros p; [reflexivity|].
  cbn [fold_left]. rewrite IH. unfold process_header. rewrite process_items_entry.
  unfold contributions. cbn [flat_map]. now rewrite entry_from_app.
Qed.

Lemma process_cookie_headers_entry (key : string) (headers : list cookie_header) :
  Dict.get key (process_cookie_headers headers)
  = entry_from key (contributions key headers) None.
Proof.
  unfold process_cookie_headers. now rewrite process_headers_entry.
Qed.

Lemma contributions_app (key : string) (hs1 hs2 : list cookie_header) :
  contributions key (hs1 ++ hs2) = (contributions key hs1 ++ contributions key hs2)%list.
Proof.
  unfold contributions. apply flat_map_app.
Qed.

Lemma contributions_in (key : string) (headers : list cookie_header) (h : cookie_header)
      (size : Z) :
  In (h, size) (contributions key headers) <-> exists raw, contributes key headers h raw size.
Proof.
  unfold contributions, contributes. rewrite in_flat_map. split.
  - intros (h' & Hh & Hin). apply in_map_iff in Hin.
    destruct Hin as ([raw sz] & [= <- <-] & Hf). apply filter_In in Hf.
    destruct Hf as [Hi Hn]. unfold named in Hn. apply String.eqb_eq in Hn.
    exists raw. auto.
  - intros (raw & Hh & Hi & Hn). exists h. split; [exact Hh|].
    apply in_map_iff. exists (raw, size). split; [reflexivity|].
    apply filter_In. split; [exact Hi|]. unfold named. simpl. now apply String.eqb_eq.
Qed.

(** X6.  The entry of a key is made from the items whose name is replaced
    by the key, each with its header, in the order of the loops: two lists
    of headers with the same such items give the same entry, and a header
    in which no name is replaced by the key can be left out. *)
Theorem entry_depends_on_own_items (key : string) :
  (forall headers headers',
      contributions key headers = contributions key headers' ->
      Dict.get key (process_cookie_headers headers)
      = Dict.get key (process_cookie_headers headers'))
  /\ (forall pre post h,
         occurrences_in key h = 0%nat ->
         Dict.get key (process_cookie_headers (pre ++ h :: post))
         = Dict.get key (process_cookie_headers (pre ++ post))).
Proof.
  split.
  - intros headers headers' H. rewrite !process_cookie_headers_entry. now rewrite H.
  - intros pre post h H. rewrite !process_cookie_headers_entry. f_equal.
    rewrite !contributions_app. f_equal.
    unfold contributions. cbn [flat_map].
    unfold occurrences_in in H. apply length_zero_iff_nil in H. now rewrite H.
Qed.

Lemma entry_depends_on_own_items_witness :
  let other := {| hdr_datetime := 1; hdr_env := Some "edge"; cookie_header_size := 50;
                  cookie_header_size_computed := 48; cookie_sizes := [("sessionid", 40)] |} in
  Dict.get "csrftoken" (process_cookie_headers ([] ++ other :: sample_headers))
  = Dict.get "csrftoken" (process_cookie_headers ([] ++ sample_headers)).
Proof.
  intros other.
  destruct (entry_depends_on_own_items "csrftoken") as [_ H].
  apply (H [] sample_headers other). reflexivity.
Defined.

Lemma entry_from_snoc (key : string) (l : list (cookie_header * Z)) (c : cookie_header * Z)
      (old : option processed_cookie) :
  entry_from key (l ++ [c]) old
  = Some (update_cookie (fst c) key (snd c) (entry_from key l old)).
Proof.
  now rewrite entry_from_app.
Qed.

Lemma entry_from_none (key : string) (l : list (cookie_header * Z)) :
  entry_from key l None = None -> l = [].
Proof.
  destruct l as [|c l] using rev_ind; [reflexivity|].
  rewrite entry_from_snoc. discriminate.
Qed.

(** Induction over the contributions that build an entry. *)
Lemma entry_from_ind (key : string) (P : list (cookie_header * Z) -> processed_cookie -> Prop) :
  (forall c, P [c] (update_cookie (fst c) key (snd c) None)) ->
  (forall l c p, P l p -> P (l ++ [c])%list (update_cookie (fst c) key (snd c) (Some p))) ->
  forall l p, entry_from key l None = Some p -> P l p.
Proof.
  intros Hone Hmore l. induction l as [|c l IH] using rev_ind; intros p.
  - discriminate.
  - rewrite entry_from_snoc. intros [= <-].
    destruct (entry_from key l None) as [q|] eqn:E.
    + apply Hmore. now apply IH.
    + apply entry_from_none in E. subst l. apply Hone.
Qed.

Lemma entry_sizes (key : string) (l : list (cookie_header * Z)) (p : processed_cookie) :
  entry_from key l None = Some p ->
  (forall c, In c l -> min_size p <= snd c <= max_size p)
  /\ (exists c, In c l /\ snd c = min_size p)
  /\ (max_size p = 0 \/ exists c, In c l /\ snd c = max_size p)
  /\ 0 <= max_size p.
Proof.
  revert l p. apply entry_from_ind.
  - intros c. simpl. split; [|split; [|split]].
    + intros c' [<-|[]]. lia.
    + exists c. split; [now left|lia].
    + destruct (Z.max_spec (snd c) 0) as [[_ E]|[_ E]]; [now left|].
      right. exists c. split; [now left|now rewrite E].
    + lia.
  - intros l c p (Hb & (cm & Hcm & Em) & Hx & H0). simpl.
    split; [|split; [|split]].
    + intros c' Hin. apply in_app_iff in Hin. destruct Hin as [Hin|[<-|[]]].
      * specialize (Hb c' Hin). lia.
      * lia.
    + destruct (Z.min_spec (snd c) (min_size p)) as [[_ E]|[_ E]]; rewrite E.
      * exists c. split; [apply in_app_iff; right; now left|reflexivity].
      * exists cm. split; [apply in_app_iff; now left|exact Em].
    + destruct (Z.max_spec (snd c) (max_size p)) as [[_ E]|[_ E]]; rewrite E.
      * destruct Hx as [Hx|(cx & Hcx & Ex)]; [now left|].
        right. exists cx. split; [apply in_app_iff; now left|exact Ex].
      * right. exists c. split; [apply in_app_iff; right; now left|reflexivity].
    + lia.
Qed.

(** X7.  In the entry of a key, [min_size] is the smallest size among the
    items that count for the key, and [max_size] is the largest of these
    sizes and 0: every such size lies between the two, [min_size] is one of
    them, and [max_size] is one of them or 0. *)
Theorem size_bounds_are_tight (headers : list cookie_header) (key : string)
        (p : processed_cookie) :
  Dict.get key (process_cookie_headers headers) = Some p ->
  (forall h raw size, contributes key headers h raw size -> min_size p <= size <= max_size p)
  /\ (exists h raw, contributes key headers h raw (min_size p))
  /\ (max_size p = 0 \/ exists h raw, contributes key headers h raw (max_size p))
  /\ 0 <= max_size p.
Proof.
  rewrite process_cookie_headers_entry. intros H.
  destruct (entry_sizes key _ p H) as (Hb & (cm & Hcm & Em) & Hx & H0).
  split; [|split; [|split]].
  - intros h raw size Hc.
    apply (Hb (h, size)). apply contributions_in. now exists raw.
  - destruct cm as [h sz]. simpl in Em. subst sz.
    apply contributions_in in Hcm. destruct Hcm as (raw & Hc). now exists h, raw.
  - destruct Hx as [Hx|([h sz] & Hcx & Ex)]; [now left|].
    right. simpl in Ex. subst sz.
    apply contributions_in in Hcx. destruct Hcx as (raw & Hc). now exists h, raw.
  - exact H0.
Qed.

Lemma size_bounds_are_tight_witness :
  exists p,
    Dict.get "csrftoken" (process_cookie_headers sample_headers) = Some p
    /\ (exists h raw, contributes "csrftoken" sample_headers h raw (min_size p))
    /\ min_size p = 64.
Proof.
  destruct (Dict.get "csrftoken" (process_cookie_headers sample_headers)) as [p|] eqn:E;
    [|vm_compute in E; discriminate].
  exists p. split; [reflexivity|].
  destruct (size_bounds_are_tight sample_headers "csrftoken" p E) as (_ & Hm & _).
  split; [exact Hm|].
  vm_compute in E. injection E as <-. reflexivity.
Defined.

Lemma entry_first_seen (key : string) (l : list (cookie_header * Z)) (p : processed_cookie) :
  entry_from key l None = Some p ->
  (forall c, In c l -> first_seen p <= hdr_datetime (fst c))
  /\ (exists c, In c l /\ hdr_datetime (fst c) = first_seen p).
Proof.
  revert l p. apply entry_from_ind.
  - intros c. simpl. split.
    + intros c' [<-|[]]. lia.
    + exists c. split; [now left|lia].
  - intros l c p (Hb & (cm & Hcm & Em)). simpl. split.
    + intros c' Hin. apply in_app_iff in Hin. destruct Hin as [Hin|[<-|[]]].
      * specialize (Hb c' Hin). lia.
      * lia.
    + destruct (Z.min_spec (hdr_datetime (fst c)) (first_seen p)) as [[_ E]|[_ E]];
        rewrite E.
      * exists c. split; [apply in_app_iff; right; now left|reflexivity].
      * exists cm. split; [apply in_app_iff; now left|exact Em].
Qed.

(** X8.  In the entry of a key, [first_seen] is the earliest time among the
    headers that hold an item counting for the key: it is the time of one of
    them and no later than the time of any. *)
Theorem first_seen_is_earliest (headers : list cookie_header) (key : string)
        (p : processed_cookie) :
  Dict.get key (process_cookie_headers headers) = Some p ->
  (forall h raw size, contributes key headers h raw size -> first_seen p <= hdr_datetime h)
  /\ (exists h raw size, contributes key headers h raw size /\ hdr_datetime h = first_seen p).
Proof.
  rewrite process_cookie_headers_entry. intros H.
  destruct (entry_first_seen key _ p H) as (Hb & ([h sz] & Hcm & Em)).
  split.
  - intros h' raw size Hc.
    apply (Hb (h', size)). apply contributions_in. now exists raw.
  - apply contributions_in in Hcm. destruct Hcm as (raw & Hc).
    exists h, raw, sz. split; [exact Hc|exact Em].
Qed.

Lemma first_seen_is_earliest_witness :
  exists p,
    Dict.get "csrftoken" (process_cookie_headers sample_headers) = Some p
    /\ first_seen p = 3
    /\ (exists h raw size,
           contributes "csrftoken" sample_headers h raw size /\ hdr_datetime h = first_seen p).
Proof.
  destruct (Dict.get "csrftoken" (process_cookie_headers sample_headers)) as [p|] eqn:E;
    [|vm_compute in E; discriminate].
  exists p. split; [reflexivity|].
  destruct (first_seen_is_earliest sample_headers "csrftoken" p E) as (_ & Hm).
  split; [|exact Hm].
  vm_compute in E. injection E as <-. reflexivity.
Defined.

Lemma set_add_in (e x : option string) (s : list (option string)) :
  In e (set_add x s) <-> e = x \/ In e s.
Proof.
  unfold set_add.
  destruct (existsb _ s) eqn:E.
  - split; [auto|]. intros [->|H]; [|exact H].
    apply existsb_exists in E. destruct E as (y & Hy & Heq).
    destruct y as [a|], x as [b|]; try discriminate; [|exact Hy].
    apply String.eqb_eq in Heq. now subst b.
  - rewrite in_app_iff. simpl. split; intros [H|H]; auto.
    destruct H as [H|[]]. now left.
Qed.

Lemma set_add_nodup (x : option string) (s : list (option string)) :
  NoDup s -> NoDup (set_add x s).
Proof.
  intros H. unfold set_add.
  destruct (existsb _ s) eqn:E; [exact H|].
  apply NoDup_app; [exact H|repeat constructor; simpl; tauto|].
  intros y Hy [Hx|[]]. subst y.
  assert (X : existsb (fun z => match z, x with
                                | Some a, Some b => String.eqb a b
                                | None, None => true
                                | _, _ => false
                                end) s = true).
  { apply existsb_exists. exists x. split; [exact Hy|].
    destruct x; [apply String.eqb_refl|reflexivity]. }
  congruence.
Qed.

Lemma entry_envs (key : string) (l : list (cookie_header * Z)) (p : processed_cookie) :
  entry_from key l None = Some p ->
  (forall e, In e (envs p) <-> exists c, In c l /\ hdr_env (fst c) = e)
  /\ NoDup (envs p).
Proof.
  revert l p. apply entry_from_ind.
  - intros c. unfold update_cookie. cbn [envs get_or]. split.
    + intros e. rewrite set_add_in. simpl. split.
      * intros [->|[]]. exists c. auto.
      * intros (c' & [<-|[]] & <-). now left.
    + apply set_add_nodup. constructor.
  - intros l c p (Hin & Hnd). unfold update_cookie. cbn [envs get_or]. split.
    + intros e. rewrite set_add_in, Hin. split.
      * intros [->|(c' & Hc' & He)].
        -- exists c. split; [apply in_app_iff; right; now left|reflexivity].
        -- exists c'. split; [apply in_app_iff; now left|exact He].
      * intros (c' & Hc' & He). apply in_app_iff in Hc'.
        destruct Hc' as [Hc'|[<-|[]]]; [right; now exists c'|now left].
    + now apply set_add_nodup.
Qed.

(** X9.  In the entry of a key, [envs] holds the environments of the headers
    that hold an item counting for the key, those and no others, each
    once. *)
Theorem envs_are_those_seen (headers : list cookie_header) (key : string)
        (p : processed_cookie) :
  Dict.get key (process_cookie_headers headers) = Some p ->
  (forall e,
      In e (envs p) <-> exists h raw size, contributes key headers h raw size /\ hdr_env h = e)
  /\ NoDup (envs p).
Proof.
  rewrite process_cookie_headers_entry. intros H.
  destruct (entry_envs key _ p H) as (Hin & Hnd).
  split; [|exact Hnd].
  intros e. rewrite Hin. split.
  - intros ([h sz] & Hc & He). apply contributions_in in Hc. destruct Hc as (raw & Hc).
    exists h, raw, sz. auto.
  - intros (h & raw & size & Hc & He). exists (h, size). split; [|exact He].
    apply contributions_in. now exists raw.
Qed.

Lemma envs_are_those_seen_witness :
  exists p,
    Dict.get "csrftoken" (process_cookie_headers sample_headers) = Some p
    /\ envs p = [Some "prod"; Some "stage"]
    /\ NoDup (envs p).
Proof.
  destruct (Dict.get "csrftoken" (process_cookie_headers sample_headers)) as [p|] eqn:E;
    [|vm_compute in E; discriminate].
  exists p. split; [reflexivity|].
  destruct (envs_are_those_seen sample_headers "csrftoken" p E) as (_ & Hnd).
  split; [|exact Hnd].
  vm_compute in E. injection E as <-. reflexivity.
Defined.

Lemma entry_header_bounds (key : string) (l : list (cookie_header * Z)) (p : processed_cookie) :
  entry_from key l None = Some p ->
  (forall c, In c l ->
             min_cookie_count p <= Z.of_nat (List.length (cookie_sizes (fst c)))
             <= max_cookie_count p
             /\ min_header_size p <= cookie_header_size (fst c) <= max_header_size p)
  /\ (exists c, In c l /\ Z.of_nat (List.length (cookie_sizes (fst c))) = min_cookie_count p)
  /\ (exists c, In c l /\ Z.of_nat (List.length (cookie_sizes (fst c))) = max_cookie_count p)
  /\ (exists c, In c l /\ cookie_header_size (fst c) = min_header_size p)
  /\ (max_header_size p = 0
      \/ exists c, In c l /\ cookie_header_size (fst c) = max_header_size p).
Proof.
  revert l p. apply entry_from_ind.
  - intros c. simpl. split; [|split; [|split; [|split]]].
    + intros c' [<-|[]]. lia.
    + exists c. split; [now left|lia].
    + exists c. split; [now left|lia].
    + exists c. split; [now left|lia].
    + destruct (Z.max_spec (cookie_header_size (fst c)) 0) as [[_ E]|[_ E]]; [now left|].
      right. exists c. split; [now left|now rewrite E].
  - intros l c p (Hb & (c1 & Hc1 & E1) & (c2 & Hc2 & E2) & (c3 & Hc3 & E3) & Hx). simpl.
    assert (Hl : forall c', In c' l -> In c' (l ++ [c])%list)
      by (intros c' H; apply in_app_iff; now left).
    assert (Hc : In c (l ++ [c])%list) by (apply in_app_iff; right; now left).
    split; [|split; [|split; [|split]]].
    + intros c' Hin. apply in_app_iff in Hin. destruct Hin as [Hin|[<-|[]]].
      * specialize (Hb c' Hin). lia.
      * lia.
    + destruct (Z.min_spec (Z.of_nat (List.length (cookie_sizes (fst c))))
                           (min_cookie_count p)) as [[_ E]|[_ E]]; rewrite E.
      * now exists c.
      * exists c1. auto.
    + destruct (Z.max_spec (Z.of_nat (List.length (cookie_sizes (fst c))))
                           (max_cookie_count p)) as [[_ E]|[_ E]]; rewrite E.
      * exists c2. auto.
      * now exists c.
    + destruct (Z.min_spec (cookie_header_size (fst c)) (min_header_size p))
        as [[_ E]|[_ E]]; rewrite E.
      * now exists c.
      * exists c3. auto.
    + destruct (Z.max_spec (cookie_header_size (fst c)) (max_header_size p))
        as [[_ E]|[_ E]]; rewrite E.
      * destruct Hx as [Hx|(cx & Hcx & Ex)]; [now left|].
        right. exists cx. auto.
      * right. now exists c.
Qed.

(** X10.  In the entry of a key, the two cookie counts are the smallest and
    the largest number of cookies of a header that holds an item counting
    for the key, and they are at least 1; [min_header_size] is the smallest
    declared size of such a header and [max_header_size] the largest of
    these sizes and 0. *)
Theorem header_bounds_are_tight (headers : list cookie_header) (key : string)
        (p : processed_cookie) :
  Dict.get key (process_cookie_headers headers) = Some p ->
  (forall h raw size,
      contributes key headers h raw size ->
      min_cookie_count p <= Z.of_nat (List.length (cookie_sizes h)) <= max_cookie_count p
      /\ min_header_size p <= cookie_header_size h <= max_header_size p)
  /\ (exists h raw size,
         contributes key headers h raw size
         /\ Z.of_nat (List.length (cookie_sizes h)) = min_cookie_count p)
  /\ (exists h raw size,
         contributes key headers h raw size
         /\ Z.of_nat (List.length (cookie_sizes h)) = max_cookie_count p)
  /\ 1 <= min_cookie_count p
  /\ (exists h raw size,
         contributes key headers h raw size /\ cookie_header_size h = min_header_size p)
  /\ (max_header_size p = 0
      \/ exists h raw size,
          contributes key headers h raw size /\ cookie_header_size h = max_header_size p).
Proof.
  rewrite process_cookie_headers_entry. intros H.
  destruct (entry_header_bounds key _ p H)
    as (Hb & ([h1 s1] & Hc1 & E1) & ([h2 s2] & Hc2 & E2) & ([h3 s3] & Hc3 & E3) & Hx).
  apply contributions_in in Hc1, Hc2, Hc3.
  destruct Hc1 as (r1 & Hc1), Hc2 as (r2 & Hc2), Hc3 as (r3 & Hc3).
  simpl in E1, E2, E3.
  split; [|split; [|split; [|split; [|split]]]].
  - intros h raw size Hc. apply (Hb (h, size)). apply contributions_in. now exists raw.
  - exists h1, r1, s1. auto.
  - exists h2, r2, s2. auto.
  - rewrite <- E1. destruct Hc1 as (_ & Hin & _).
    destruct (cookie_sizes h1); [contradiction|simpl List.length; lia].
  - exists h3, r3, s3. auto.
  - destruct Hx as [Hx|([h4 s4] & Hc4 & E4)]; [now left|].
    right. apply contributions_in in Hc4. destruct Hc4 as (r4 & Hc4).
    exists h4, r4, s4. auto.
Qed.

Lemma header_bounds_are_tight_witness :
  exists p,
    Dict.get "csrftoken" (process_cookie_headers sample_headers) = Some p
    /\ min_cookie_count p = 1 /\ max_cookie_count p = 2
    /\ min_header_size p = 90 /\ max_header_size p = 120
    /\ 1 <= min_cookie_count p.
Proof.
  destruct (Dict.get "csrftoken" (process_cookie_headers sample_headers)) as [p|] eqn:E;
    [|vm_compute in E; discriminate].
  exists p. split; [reflexivity|].
  destruct (header_bounds_are_tight sample_headers "csrftoken" p E) as (_ & _ & _ & H1 & _).
  vm_compute in E. injection E as <-.
  split; [reflexivity|]. split; [reflexivity|]. split; [reflexivity|].
  split; [reflexivity|exact H1].
Defined.

Lemma entry_full_size (key : string) (l : list (cookie_header * Z)) (p : processed_cookie) :
  entry_from key l None = Some p ->
  min_full_size p = min_size p + Str.len key + 2
  /\ ((exists c, In c l /\ 0 <= snd c) /\ max_full_size p = max_size p + Str.len key + 2
      \/ (forall c, In c l -> snd c < 0)
         /\ max_size p = 0 /\ 0 <= max_full_size p <= Str.len key + 1).
Proof.
  assert (Hlen : 0 <= Str.len key) by (unfold Str.len; lia).
  revert l p. apply entry_from_ind.
  - intros c. simpl. split; [lia|].
    destruct (Z_lt_le_dec (snd c) 0) as [Hneg|Hpos].
    + right. split; [intros c' [<-|[]]; exact Hneg|lia].
    + left. split; [exists c; split; [now left|exact Hpos]|lia].
  - intros l c p (Hmin & Hmax). simpl. split; [lia|].
    destruct Hmax as [((c0 & Hc0 & H0) & E)|(Hall & E1 & E2)].
    + left. split; [exists c0; split; [apply in_app_iff; now left|exact H0]|lia].
    + destruct (Z_lt_le_dec (snd c) 0) as [Hneg|Hpos].
      * right. split; [|lia].
        intros c' Hin. apply in_app_iff in Hin.
        destruct Hin as [Hin|[<-|[]]]; auto.
      * left. split; [exists c; split; [apply in_app_iff; right; now left|exact Hpos]|lia].
Qed.

(** X11.  The full size is computed with the length of the key (the name
    after replacement), which is the same for all items of an entry; so
    [min_full_size] is [min_size] plus the length of the key plus 2, and,
    when one of the sizes counted is not negative, [max_full_size] is
    [max_size] plus the same. *)
Theorem full_size_follows_size (headers : list cookie_header) (key : string)
        (p : processed_cookie) :
  Dict.get key (process_cookie_headers headers) = Some p ->
  min_full_size p = min_size p + Str.len key + 2
  /\ ((exists h raw size, contributes key headers h raw size /\ 0 <= size) ->
      max_full_size p = max_size p + Str.len key + 2).
Proof.
  rewrite process_cookie_headers_entry. intros H.
  destruct (entry_full_size key _ p H) as (Hmin & Hmax).
  split; [exact Hmin|].
  intros (h & raw & size & Hc & Hpos).
  destruct Hmax as [[_ E]|(Hall & _)]; [exact E|].
  assert (Hin : In (h, size) (contributions key headers))
    by (apply contributions_in; now exists raw).
  specialize (Hall _ Hin). simpl in Hall. lia.
Qed.

Lemma full_size_follows_size_witness :
  exists p,
    Dict.get "_hjSession_{id}" (process_cookie_headers sample_headers) = Some p
    /\ max_size p = 10
    /\ max_full_size p = max_size p + Str.len "_hjSession_{id}" + 2.
Proof.
  destruct (Dict.get "_hjSession_{id}" (process_cookie_headers sample_headers)) as [p|] eqn:E;
    [|vm_compute in E; discriminate].
  exists p. split; [reflexivity|].
  destruct (full_size_follows_size sample_headers "_hjSession_{id}" p E) as (_ & Hm).
  split; [vm_compute in E; injection E as <-; reflexivity|].
  apply Hm.
  exists (hd {| hdr_datetime := 0; hdr_env := None; cookie_header_size := 0;
                cookie_header_size_computed := 0; cookie_sizes := [] |} sample_headers),
    "_hjSession_123456", 10.
  split; [|lia].
  split; [now left|]. split; [right; now left|vm_compute; reflexivity].
Defined.

(** ** The aggregation: the keys of the mapping *)

Lemma normalize_name_twice (name : string) :
  normalize_name (normalize_name name) = normalize_name name.
Proof.
  unfold normalize_name at 2 3.
  destruct (replace_parameterized_cases PARAMETERIZED_COOKIES name) as [E|[re Hin]].
  - now rewrite E.
  - now apply (template_fixed re).
Qed.

Lemma dict_get_none {V : Type} (k : string) (d : list (string * V)) :
  Dict.get k d = None <-> ~ In k (map fst d).
Proof.
  induction d as [|[k' v] d IH]; simpl; [tauto|].
  destruct (String.eqb k' k) eqn:E.
  - apply String.eqb_eq in E. split; [discriminate|]. intros H. exfalso. auto.
  - apply String.eqb_neq in E. rewrite IH. tauto.
Qed.

Lemma process_headers_nodup (headers : list cookie_header) (p : processed) :
  NoDup (map fst p) -> NoDup (map fst (fold_left process_header headers p)).
Proof.
  revert p. induction headers as [|h headers IH]; simpl; intros p H; [exact H|].
  apply IH. unfold process_header. generalize (cookie_sizes h) as items.
  intros items. revert p H.
  induction items as [|item items IHi]; simpl; intros p H; [exact H|].
  apply IHi. unfold process_cookie. now apply dict_set_nodup.
Qed.

Lemma key_present (key : string) (headers : list cookie_header) :
  In key (map fst (process_cookie_headers headers))
  <-> exists h raw size, contributes key headers h raw size.
Proof.
  split.
  - intros Hin.
    destruct (Dict.get key (process_cookie_headers headers)) as [p|] eqn:E.
    + rewrite process_cookie_headers_entry in E.
      destruct (contributions key headers) as [|[h size] l] eqn:Ec; [discriminate|].
      assert (Hc : In (h, size) (contributions key headers)) by (rewrite Ec; now left).
      apply contributions_in in Hc. destruct Hc as (raw & Hc). now exists h, raw, size.
    + apply dict_get_none in E. contradiction.
  - intros (h & raw & size & Hc).
    destruct (in_dec string_dec key (map fst (process_cookie_headers headers)))
      as [Hin|Hnot]; [exact Hin|].
    apply dict_get_none in Hnot. rewrite process_cookie_headers_entry in Hnot.
    apply entry_from_none in Hnot.
    assert (Hi : In (h, size) (contributions key headers))
      by (apply contributions_in; now exists raw).
    rewrite Hnot in Hi. contradiction.
Qed.

(** X12.  The keys of the mapping are distinct; a name is a key exactly when
    some item of some header has a name that is replaced by it; and every
    key is its own replacement, so no name that a rule replaces is left as a
    key. *)
Theorem keys_of_the_mapping (headers : list cookie_header) :
  NoDup (map fst (process_cookie_headers headers))
  /\ (forall key,
         In key (map fst (process_cookie_headers headers))
         <-> exists h raw size, contributes key headers h raw size)
  /\ (forall key,
         In key (map fst (process_cookie_headers headers)) -> normalize_name key = key).
Proof.
  split; [|split].
  - apply process_headers_nodup. constructor.
  - intros key. apply key_present.
  - intros key Hin. apply key_present in Hin.
    destruct Hin as (h & raw & size & _ & _ & <-). apply normalize_name_twice.
Qed.

Lemma keys_of_the_mapping_witness :
  map fst (process_cookie_headers sample_headers) = ["csrftoken"; "_hjSession_{id}"]
  /\ normalize_name "_hjSession_{id}" = "_hjSession_{id}"
  /\ exists h raw size, contributes "_hjSession_{id}" sample_headers h raw size.
Proof.
  destruct (keys_of_the_mapping sample_headers) as (_ & Hiff & Hfix).
  assert (Hin : In "_hjSession_{id}" (map fst (process_cookie_headers sample_headers)))
    by (vm_compute; tauto).
  split; [reflexivity|]. split; [exact (Hfix _ Hin)|]. exact (proj1 (Hiff _) Hin).
Defined.

Lemma dict_set_key_list {V : Type} (k : string) (v : V) (d : list (string * V)) :
  map fst (Dict.set k v d) = note_key (map fst d) k.
Proof.
  unfold note_key. induction d as [|[k' v'] d IH]; simpl; [reflexivity|].
  rewrite (String.eqb_sym k k').
  destruct (String.eqb k' k) eqn:E; simpl.
  - now rewrite app_nil_r.
  - now rewrite IH.
Qed.

Lemma process_items_keys (h : cookie_header) (items : list (string * Z)) (p : processed) :
  map fst (fold_left (process_cookie h) items p)
  = fold_left note_key (map normalize_name (map fst items)) (map fst p).
Proof.
  revert p. induction items as [|item items IH]; simpl; intros p; [reflexivity|].
  rewrite IH. unfold process_cookie at 1. now rewrite dict_set_key_list.
Qed.

Lemma process_headers_keys (headers : list cookie_header) (p : processed) :
  map fst (fold_left process_header headers p)
  = fold_left note_key (map normalize_name (raw_names headers)) (map fst p).
Proof.
  revert p. induction headers as [|h headers IH]; simpl; intros p; [reflexivity|].
  rewrite IH. unfold process_header. rewrite process_items_keys.
  now rewrite map_app, fold_left_app.
Qed.

Lemma filter_filter_when {A : Type} (f g h : A -> bool) (l : list A) :
  (forall y, h y = g y && f y) -> filter f (filter g l) = filter h l.
Proof.
  intros H. induction l as [|x l IH]; simpl; [reflexivity|].
  rewrite H. destruct (g x); simpl; [|exact IH].
  destruct (f x); now rewrite IH.
Qed.

Lemma mem_app (y : string) (ks ks' : list string) :
  Str.mem y (ks ++ ks') = Str.mem y ks || Str.mem y ks'.
Proof.
  induction ks as [|k ks IH]; simpl; [reflexivity|].
  now rewrite IH, orb_assoc.
Qed.

Lemma note_keys_first_places (names ks : list string) :
  fold_left note_key names ks
  = (ks ++ filter (fun y => negb (Str.mem y ks)) (first_places names))%list.
Proof.
  revert ks. induction names as [|n names IH]; intros ks; simpl.
  - now rewrite app_nil_r.
  - rewrite IH. unfold note_key. destruct (Str.mem n ks) eqn:E; simpl.
    + rewrite app_nil_r. f_equal.
      rewrite (filter_filter_when _ _ (fun y => negb (Str.mem y ks))); [reflexivity|].
      intros y. destruct (String.eqb y n) eqn:Ey; simpl; [|reflexivity].
      apply String.eqb_eq in Ey. subst y. now rewrite E.
    + rewrite <- app_assoc. simpl. f_equal. f_equal.
      rewrite (filter_filter_when _ _ (fun y => negb (Str.mem y (ks ++ [n])))); [reflexivity|].
      intros y. rewrite mem_app. simpl. rewrite orb_false_r.
      destruct (Str.mem y ks), (String.eqb y n); reflexivity.
Qed.

(** X13.  The mapping lists its keys in the order in which they first come
    up in the loops: they are the names of all items of all headers, each
    replaced, with every repetition after the first left out. *)
Theorem keys_in_order_of_first_appearance (headers : list cookie_header) :
  map fst (process_cookie_headers headers)
  = first_places (map normalize_name (raw_names headers)).
Proof.
  unfold process_cookie_headers. rewrite process_headers_keys, note_keys_first_places.
  simpl. induction (first_places _) as [|x l IH]; simpl; [reflexivity|]. now rewrite IH.
Qed.

Lemma dict_set_total (k : string) (v : processed_cookie) (p : processed) :
  total_count (Dict.set k v p) = total_count p - count_at k p + count v.
Proof.
  unfold count_at. induction p as [|[k' v'] p IH]; simpl; [lia|].
  destruct (String.eqb k' k); simpl; [lia|]. rewrite IH. lia.
Qed.

Lemma process_headers_total (headers : list cookie_header) (p : processed) :
  total_count (fold_left process_header headers p)
  = total_count p + Z.of_nat (List.length (raw_names headers)).
Proof.
  revert p. induction headers as [|h headers IH]; simpl; intros p; [lia|].
  rewrite IH, length_app, length_map. unfold process_header.
  assert (E : forall items q,
             total_count (fold_left (process_cookie h) items q)
             = total_count q + Z.of_nat (List.length items)).
  { induction items as [|item items IHi]; intros q; [simpl; lia|].
    cbn [fold_left]. rewrite IHi. unfold process_cookie at 1.
    rewrite dict_set_total. unfold update_cookie, count_at. simpl count.
    simpl List.length. lia. }
  rewrite E. lia.
Qed.

(** X14.  The [count] fields of the mapping add up to the number of items of
    all headers: every cookie of every header is counted in one entry, and
    in one only. *)
Theorem counts_add_up (headers : list cookie_header) :
  total_count (process_cookie_headers headers)
  = Z.of_nat (List.length (raw_names headers)).
Proof.
  unfold process_cookie_headers. rewrite process_headers_total. reflexivity.
Qed.

(** ** The name rules: the names that each rule takes *)

Lemma star_prefix {R : Type} (cs : charset) (pre s' : string) (k : string -> option R) :
  all_chars (inset cs) pre = true ->
  star R cs s' k <> None ->
  star R cs (pre ++ s') k <> None.
Proof.
  intros Hpre Hk. induction pre as [|c pre IH]; simpl; [exact Hk|].
  simpl in Hpre. apply andb_true_iff in Hpre. destruct Hpre as [Hc Hpre].
  rewrite Hc. specialize (IH Hpre).
  destruct (star R cs (pre ++ s') k); [discriminate|contradiction].
Qed.

Lemma star_base {R : Type} (cs : charset) (s : string) (k : string -> option R) :
  k s <> None -> star R cs s k <> None.
Proof.
  intros Hk. destruct s as [|c s]; simpl; [exact Hk|].
  destruct (inset cs c); [|exact Hk].
  destruct (star R cs s k); [discriminate|exact Hk].
Qed.

Lemma star_then {R : Type} (cs : charset) (pre s' : string) (k : string -> option R) :
  all_chars (inset cs) pre = true ->
  k s' <> None ->
  star R cs (pre ++ s') k <> None.
Proof.
  intros Hpre Hk. apply star_prefix; [exact Hpre|]. now apply star_base.
Qed.

(** X15.  A name that begins with none of the literal heads of the rules
    ([_gac_UA-], [_hjSession_], [_hjSessionUser_], [ab], [AMCV_],
    [amplitude_id_], [mp_]) is left as it is. *)
Theorem name_without_rule_head_unchanged (name : string) :
  Str.startswith "_gac_UA-" name = false ->
  Str.startswith "_hjSession_" name = false ->
  Str.startswith "_hjSessionUser_" name = false ->
  Str.startswith "ab" name = false ->
  Str.startswith "AMCV_" name = false ->
  Str.startswith "amplitude_id_" name = false ->
  Str.startswith "mp_" name = false ->
  normalize_name name = name.
Proof.
  intros H1 H2 H3 H4 H5 H6 H7.
  unfold normalize_name, PARAMETERIZED_COOKIES, replace_parameterized, rmatch, seq.
  cbn [fold_right run]. now rewrite H1, H2, H3, H4, H5, H6, H7.
Qed.

Lemma name_without_rule_head_unchanged_witness :
  normalize_name "csrftoken" = "csrftoken"
  /\ normalize_name "edx-user-info" = "edx-user-info".
Proof.
  split.
  - apply (name_without_rule_head_unchanged "csrftoken"); reflexivity.
  - apply (name_without_rule_head_unchanged "edx-user-info"); reflexivity.
Defined.

Lemma eol_continues (tail : string) :
  at_eol tail = true ->
  (if at_eol tail then if Str.startswith "" tail then Some (@nil (string * string)) else None
   else None) <> None.
Proof.
  intros H. rewrite H. destruct tail; discriminate.
Qed.

(** X16.  The three rules with a run of digits: a name made of [_hjSession_],
    [_hjSessionUser_] or [_gac_UA-], one or more digits (for [_gac_UA-],
    digits and hyphens) and nothing more, or only a final line feed, is
    replaced by the name of its rule. *)
Theorem numbered_names_replaced (c : ascii) (ds tail : string) :
  at_eol tail = true ->
  (Str.isdigit c && all_chars Str.isdigit ds = true ->
   normalize_name ("_hjSession_" ++ String c ds ++ tail) = "_hjSession_{id}"
   /\ normalize_name ("_hjSessionUser_" ++ String c ds ++ tail) = "_hjSessionUser_{id}")
  /\ (all_chars (inset (CUnion CDigit (CChar "-"))) (String c ds) = true ->
      normalize_name ("_gac_UA-" ++ String c ds ++ tail) = "_gac_UA-{id}").
Proof.
  intros Htail. pose proof (eol_continues tail Htail) as Hk. split.
  - intros H. apply andb_true_iff in H. destruct H as [Hc Hds].
    assert (S : star captures CDigit (ds ++ tail)
                     (fun s'' : string =>
                        if at_eol s'' then if Str.startswith "" s'' then Some [] else None
                        else None) <> None)
      by (apply star_then; [exact Hds|exact Hk]).
    split.
    + unfold normalize_name, PARAMETERIZED_COOKIES, replace_parameterized, rmatch.
      simpl. simpl in Hc. rewrite Hc.
      destruct (star captures CDigit (ds ++ tail) _); [reflexivity|contradiction].
    + unfold normalize_name, PARAMETERIZED_COOKIES, replace_parameterized, rmatch.
      simpl. simpl in Hc. rewrite Hc.
      destruct (star captures CDigit (ds ++ tail) _); [reflexivity|contradiction].
  - intros H. cbn [all_chars] in H. apply andb_true_iff in H. destruct H as [Hc Hds].
    assert (S : star captures (CUnion CDigit (CChar "-")) (ds ++ tail)
                     (fun s'' : string =>
                        if at_eol s'' then if Str.startswith "" s'' then Some [] else None
                        else None) <> None)
      by (apply star_then; [exact Hds|exact Hk]).
    unfold normalize_name, PARAMETERIZED_COOKIES, replace_parameterized, rmatch.
    simpl. simpl in Hc. rewrite Hc.
    destruct (star captures (CUnion CDigit (CChar "-")) (ds ++ tail) _);
      [reflexivity|contradiction].
Qed.

Lemma numbered_names_replaced_witness :
  normalize_name "_hjSessionUser_111111" = "_hjSessionUser_{id}"
  /\ normalize_name "_gac_UA-300-45" = "_gac_UA-{id}".
Proof.
  destruct (numbered_names_replaced "1" "11111" "" eq_refl) as [H1 _].
  destruct (numbered_names_replaced "3" "00-45" "" eq_refl) as [_ H2].
  split.
  - exact (proj2 (H1 eq_refl)).
  - exact (H2 eq_refl).
Defined.

(** X17.  The two rules with a run of word characters: [AMCV_], one or more
    word characters and [%40AdobeOrg] is replaced by [AMCV_{id}@AdobeOrg],
    and [mp_], one or more word characters and [_mixpanel] by
    [mp_{id}_mixpanel]; a final line feed is allowed. *)
Theorem worded_names_replaced (c : ascii) (w tail : string) :
  at_eol tail = true ->
  isword c && all_chars isword w = true ->
  normalize_name ("AMCV_" ++ String c w ++ "%40AdobeOrg" ++ tail) = "AMCV_{id}@AdobeOrg"
  /\ normalize_name ("mp_" ++ String c w ++ "_mixpanel" ++ tail) = "mp_{id}_mixpanel".
Proof.
  intros Htail H. pose proof (eol_continues tail Htail) as Hk.
  apply andb_true_iff in H. destruct H as [Hc Hw].
  split.
  - unfold normalize_name, PARAMETERIZED_COOKIES, replace_parameterized, rmatch.
    simpl. simpl in Hc. rewrite Hc.
    match goal with
    | |- context [star captures CWord ?s ?k] =>
        assert (S : star captures CWord s k <> None)
          by (apply star_then; [exact Hw|simpl; exact Hk]);
        destruct (star captures CWord s k); [reflexivity|contradiction]
    end.
  - unfold normalize_name, PARAMETERIZED_COOKIES, replace_parameterized, rmatch.
    simpl. simpl in Hc. rewrite Hc.
    match goal with
    | |- context [star captures CWord ?s ?k] =>
        assert (S : star captures CWord s k <> None)
          by (apply star_then; [exact Hw|simpl; exact Hk]);
        destruct (star captures CWord s k); [reflexivity|contradiction]
    end.
Qed.

Lemma worded_names_replaced_witness :
  normalize_name "AMCV_1A2B3C%40AdobeOrg" = "AMCV_{id}@AdobeOrg"
  /\ normalize_name "mp_0f1e2d_mixpanel" = "mp_{id}_mixpanel".
Proof.
  split.
  - exact (proj1 (worded_names_replaced "1" "A2B3C" "" eq_refl eq_refl)).
  - exact (proj2 (worded_names_replaced "0" "f1e2d" "" eq_refl eq_refl)).
Defined.

(** X18.  The dots of the three [ab.storage] patterns are not escaped: any
    two characters other than a line feed may stand in their place.  With
    such characters, and a remainder that stays on one line, a name with
    [deviceId] or [sessionId] is replaced by [ab.storage.deviceId.{id}] and
    a name with [userId] by [ab.storage.userId.{id}]; [amplitude_id_] with
    such a remainder is replaced by [amplitude_id_{id}]. *)
Theorem dotted_names_replaced (c1 c2 : ascii) (rest : string) :
  Ascii.eqb c1 newline = false ->
  Ascii.eqb c2 newline = false ->
  one_line rest = true ->
  normalize_name ("ab" ++ String c1 ("storage" ++ String c2 ("deviceId" ++ rest)))
  = "ab.storage.deviceId.{id}"
  /\ normalize_name ("ab" ++ String c1 ("storage" ++ String c2 ("sessionId" ++ rest)))
     = "ab.storage.deviceId.{id}"
  /\ normalize_name ("ab" ++ String c1 ("storage" ++ String c2 ("userId" ++ rest)))
     = "ab.storage.userId.{id}"
  /\ normalize_name ("amplitude_id_" ++ rest) = "amplitude_id_{id}".
Proof.
  intros H1 H2 Hrest.
  repeat split;
    unfold normalize_name, PARAMETERIZED_COOKIES, replace_parameterized, rmatch;
    simpl; rewrite ?H1, ?H2; simpl;
    rewrite (star_dot_eol (R := captures) rest _ []); auto;
    intros s' Hs'; now rewrite Hs'.
Qed.

Lemma dotted_names_replaced_witness :
  normalize_name "ab_storage_userId_a1b2" = "ab.storage.userId.{id}"
  /\ normalize_name "amplitude_id_a1b2edx.org" = "amplitude_id_{id}".
Proof.
  destruct (dotted_names_replaced "_" "_" "_a1b2" eq_refl eq_refl eq_refl) as (_ & _ & H & _).
  destruct (dotted_names_replaced "." "." "a1b2edx.org" eq_refl eq_refl eq_refl)
    as (_ & _ & _ & H').
  split; [exact H|exact H'].
Defined.

Lemma startswith_split (l s : string) :
  Str.startswith l s = true -> s = l ++ Str.drop (String.length l) s.
Proof.
  revert s. induction l as [|a l IH]; intros s H; [reflexivity|].
  destruct s as [|b s]; [discriminate|]. simpl in H.
  apply andb_true_iff in H. destruct H as [Hab Hl].
  apply Ascii.eqb_eq in Hab. subst b. simpl. f_equal. now apply IH.
Qed.

Lemma hjSession_rule_inv (name : string) (m : captures) :
  rmatch (seq [Lit "_hjSession_"; Plus CDigit; Eol]) name = Some m ->
  exists c ds tail,
    name = "_hjSession_" ++ String c ds ++ tail
    /\ Str.isdigit c && all_chars Str.isdigit ds = true
    /\ at_eol tail = true.
Proof.
  unfold rmatch, seq. cbn [fold_right run]. intros H.
  destruct (Str.startswith "_hjSession_" name) eqn:Hs; [|discriminate].
  apply startswith_split in Hs.
  destruct (Str.drop (String.length "_hjSession_") name) as [|c s2]; [discriminate|].
  destruct (inset CDigit c) eqn:Hc; [|discriminate].
  apply star_inv in H. destruct H as (ds & tail & -> & Hds & H).
  destruct (at_eol tail) eqn:Ht; [|discriminate].
  exists c, ds, tail. split; [exact Hs|]. split; [|exact Ht].
  simpl in Hc. rewrite Hc. exact Hds.
Qed.

Lemma hjSession_rule_takes (c : ascii) (ds tail : string) :
  Str.isdigit c && all_chars Str.isdigit ds = true ->
  at_eol tail = true ->
  normalize_name ("_hjSession_" ++ String c ds ++ tail) = "_hjSession_{id}".
Proof.
  intros H Htail. pose proof (eol_continues tail Htail) as Hk.
  apply andb_true_iff in H. destruct H as [Hc Hds].
  unfold normalize_name, PARAMETERIZED_COOKIES, replace_parameterized, rmatch.
  simpl. simpl in Hc. rewrite Hc.
  match goal with
  | |- context [star captures CDigit ?s ?k] =>
      assert (S : star captures CDigit s k <> None)
        by (apply star_then; [exact Hds|exact Hk]);
      destruct (star captures CDigit s k); [reflexivity|contradiction]
  end.
Qed.

(** X19.  The names that end up under the key [_hjSession_{id}] are that
    name itself and the names made of [_hjSession_], one or more digits and
    at most a final line feed, and no others. *)
Theorem hjSession_key_sources (name : string) :
  normalize_name name = "_hjSession_{id}"
  <-> name = "_hjSession_{id}"
      \/ exists c ds tail,
          name = "_hjSession_" ++ String c ds ++ tail
          /\ Str.isdigit c && all_chars Str.isdigit ds = true
          /\ at_eol tail = true.
Proof.
  split.
  - unfold normalize_name, PARAMETERIZED_COOKIES. cbn [replace_parameterized].
    destruct (rmatch _ name); [discriminate|].
    destruct (rmatch _ name) as [m|] eqn:E.
    + intros _. right. now apply (hjSession_rule_inv name m).
    + repeat (destruct (rmatch _ name); [discriminate|]).
      intros ->. now left.
  - intros [->|(c & ds & tail & -> & Hd & Ht)].
    + vm_compute. reflexivity.
    + now apply hjSession_rule_takes.
Qed.

Lemma hjSession_key_sources_witness :
  normalize_name "_hjSession_2063" = "_hjSession_{id}"
  /\ ("_hjSession_77" = "_hjSession_{id}"
      \/ exists c ds tail,
          "_hjSession_77" = "_hjSession_" ++ String c ds ++ tail
          /\ Str.isdigit c && all_chars Str.isdigit ds = true
          /\ at_eol tail = true).
Proof.
  split.
  - apply (proj2 (hjSession_key_sources "_hjSession_2063")).
    right. exists "2"%char, "063", "". split; [reflexivity|]. split; reflexivity.
  - apply (proj1 (hjSession_key_sources "_hjSession_77")). reflexivity.
Defined.

(** ** From the rows to the report: [main] *)

Lemma loaded_record_ok (parse_time : string -> option datetime) (rows : list row)
      (headers : list cookie_header) (h : cookie_header) :
  _load_csv parse_time rows = Ok headers ->
  In h headers ->
  0 < cookie_header_size h /\ Forall item_ok (cookie_sizes h).
Proof.
  unfold _load_csv.
  destruct (load_rows parse_time loader_init rows) as [st|e] eqn:E; [|discriminate].
  intros [= <-] Hin.
  destruct (load_rows_steps parse_time rows loader_init st E) as (acc & new & _ & Hh & Hr).
  simpl in Hh. rewrite Hh in Hin.
  destruct (forall2_in_right _ _ _ _ Hr Hin) as (r & _ & Hrec).
  destruct (record_of_ok parse_time r h Hrec) as (H1 & H2 & _). auto.
Qed.

Lemma dict_in_get {V : Type} (k : string) (v : V) (d : list (string * V)) :
  NoDup (map fst d) -> In (k, v) d -> Dict.get k d = Some v.
Proof.
  induction d as [|[k' v'] d IH]; simpl; intros Hnd Hin; [contradiction|].
  inversion Hnd as [|x l Hn Hd]; subst.
  destruct Hin as [[= -> ->]|Hin].
  - now rewrite String.eqb_refl.
  - destruct (String.eqb k' k) eqn:E.
    + apply String.eqb_eq in E. subst k'. exfalso. apply Hn.
      apply in_map_iff. now exists (k, v).
    + now apply IH.
Qed.

Lemma entry_count_positive (key : string) (l : list (cookie_header * Z))
      (p : processed_cookie) :
  entry_from key l None = Some p -> 1 <= count p.
Proof.
  revert l p. apply (entry_from_ind key (fun _ p => 1 <= count p)).
  - intros c. simpl. lia.
  - intros l c p H. simpl. lia.
Qed.

Lemma report_data_in (m : processed) (name : string) (p : processed_cookie) :
  In (Data name p) (printed (print_processed_cookies m)) -> In (name, p) m.
Proof.
  unfold print_processed_cookies. cbn [printed].
  destruct (print_items_prefix (sorted_cookie_items m)) as (rows & rest & E & Hp & _ & _).
  rewrite Hp. intros [H|H]; [discriminate|].
  apply in_map_iff in H. destruct H as ([k v] & [= -> ->] & Hin).
  apply (Permutation_in _ (Permutation_sym (sorted_reverse_perm max_full_size_of m))).
  change (In (name, p) (sorted_cookie_items m)). rewrite E. apply in_app_iff. now left.
Qed.

(** *** The exception of [min] *)

Section KindsOfTimeStamps.
Variable aware : datetime -> bool.

Lemma first_seen_kind (h : cookie_header) (name : string) (size : Z)
      (old : option processed_cookie) :
  (forall v, old = Some v -> aware (hdr_datetime h) = aware (first_seen v)) ->
  aware (first_seen (update_cookie h name size old)) = aware (hdr_datetime h).
Proof.
  intros H. unfold update_cookie. cbn [first_seen]. destruct old as [v|]; cbn [get_or].
  - destruct (Z.min_spec (hdr_datetime h) (first_seen v)) as [[_ E]|[_ E]]; rewrite E.
    + reflexivity.
    + symmetry. now apply H.
  - now rewrite Z.min_id.
Qed.

Lemma process_cookie_run_ok (h : cookie_header) (p p1 : processed) (item : string * Z) :
  process_cookie_run aware h p item = Ok p1 ->
  p1 = process_cookie h p item
  /\ (exists v1, Dict.get (normalize_name (fst item)) p1 = Some v1
                 /\ aware (first_seen v1) = aware (hdr_datetime h))
  /\ (forall k v, Dict.get k p = Some v ->
                  exists v1, Dict.get k p1 = Some v1
                             /\ aware (first_seen v1) = aware (first_seen v)).
Proof.
  unfold process_cookie_run. intros H.
  assert (E : p1 = process_cookie h p item
              /\ forall v, Dict.get (normalize_name (fst item)) p = Some v ->
                           aware (hdr_datetime h) = aware (first_seen v)).
  { destruct (Dict.get (normalize_name (fst item)) p) as [v|].
    - destruct (Bool.eqb (aware (hdr_datetime h)) (aware (first_seen v))) eqn:B;
        [|discriminate].
      injection H as <-. split; [reflexivity|]. intros v' [= <-]. now apply Bool.eqb_prop.
    - injection H as <-. split; [reflexivity|]. intros v' [=]. }
  destruct E as [-> Hk]. split; [reflexivity|].
  pose proof (first_seen_kind h (normalize_name (fst item)) (snd item) _ Hk) as K.
  unfold process_cookie. cbv zeta. split.
  - rewrite dict_get_set_same. eexists. split; [reflexivity|exact K].
  - intros k v G. destruct (String.eqb_spec (normalize_name (fst item)) k) as [<-|Hne].
    + rewrite dict_get_set_same. eexists. split; [reflexivity|]. rewrite K. now apply Hk.
    + rewrite dict_get_set_other by exact Hne. now exists v.
Qed.

Lemma process_items_run_ok (h : cookie_header) (items : list (string * Z))
      (p p' : processed) :
  process_items_run aware h items p = Ok p' ->
  p' = fold_left (process_cookie h) items p
  /\ (forall item, In item items ->
                   exists v, Dict.get (normalize_name (fst item)) p' = Some v
                             /\ aware (first_seen v) = aware (hdr_datetime h))
  /\ (forall k v, Dict.get k p = Some v ->
                  exists v', Dict.get k p' = Some v'
                             /\ aware (first_seen v') = aware (first_seen v)).
Proof.
  revert p. induction items as [|item items IH]; simpl; intros p H.
  - injection H as <-. split; [reflexivity|]. split; [intros ? []|].
    intros k v G. now exists v.
  - destruct (process_cookie_run aware h p item) as [p1|e] eqn:E; [|discriminate].
    apply process_cookie_run_ok in E. destruct E as (E1 & (v1 & G1 & K1) & S1).
    destruct (IH _ H) as (E2 & I2 & S2). split; [now rewrite E2, E1|]. split.
    + intros it [<-|Hin].
      * destruct (S2 _ _ G1) as (v' & G' & K'). exists v'. split; [exact G'|].
        now rewrite K'.
      * now apply I2.
    + intros k v G. destruct (S1 _ _ G) as (v1' & G1' & K1').
      destruct (S2 _ _ G1') as (v' & G' & K'). exists v'. split; [exact G'|].
      now rewrite K', K1'.
Qed.

Lemma process_headers_run_ok (headers : list cookie_header) (p p' : processed) :
  process_headers_run aware headers p = Ok p' ->
  p' = fold_left process_header headers p
  /\ (forall h item, In h headers -> In item (cookie_sizes h) ->
                     exists v, Dict.get (normalize_name (fst item)) p' = Some v
                               /\ aware (first_seen v) = aware (hdr_datetime h))
  /\ (forall k v, Dict.get k p = Some v ->
                  exists v', Dict.get k p' = Some v'
                             /\ aware (first_seen v') = aware (first_seen v)).
Proof.
  revert p. induction headers as [|h headers IH]; simpl; intros p H.
  - injection H as <-. split; [reflexivity|]. split; [intros ? ? []|].
    intros k v G. now exists v.
  - destruct (process_items_run aware h (cookie_sizes h) p) as [p1|e] eqn:E; [|discriminate].
    apply process_items_run_ok in E. destruct E as (E1 & I1 & S1).
    destruct (IH _ H) as (E2 & I2 & S2). split; [now rewrite E2, E1|]. split.
    + intros h' item [<-|Hin] Hitem.
      * destruct (I1 _ Hitem) as (v1 & G1 & K1).
        destruct (S2 _ _ G1) as (v' & G' & K'). exists v'. split; [exact G'|].
        now rewrite K'.
      * now apply I2.
    + intros k v G. destruct (S1 _ _ G) as (v1' & G1' & K1').
      destruct (S2 _ _ G1') as (v' & G' & K'). exists v'. split; [exact G'|].
      now rewrite K', K1'.
Qed.

Lemma process_cookie_first_seen (hs : list cookie_header) (h : cookie_header)
      (item : string * Z) (p : processed) :
  In h hs -> In item (cookie_sizes h) ->
  first_seen_from hs p -> first_seen_from hs (process_cookie h p item).
Proof.
  intros Hh Hitem Hp. unfold first_seen_from, process_cookie. cbv zeta.
  apply dict_set_forall_item; [exact Hp|]. cbn [fst snd].
  assert (Own : exists h' raw size,
             contributes (normalize_name (fst item)) hs h' raw size
             /\ hdr_datetime h = hdr_datetime h').
  { exists h, (fst item), (snd item). split; [|reflexivity].
    split; [exact Hh|]. split; [|reflexivity]. now destruct item. }
  unfold update_cookie. cbn [first_seen].
  destruct (Dict.get (normalize_name (fst item)) p) as [v|] eqn:G; cbn [get_or].
  - destruct (Z.min_spec (hdr_datetime h) (first_seen v)) as [[_ E]|[_ E]]; rewrite E.
    + exact Own.
    + apply dict_get_in in G. unfold first_seen_from in Hp. rewrite Forall_forall in Hp.
      exact (Hp _ G).
  - rewrite Z.min_id. exact Own.
Qed.

Lemma process_cookie_run_raises (hs : list cookie_header) (h : cookie_header)
      (item : string * Z) (p : processed) (e : exn) :
  In h hs -> In item (cookie_sizes h) -> first_seen_from hs p ->
  process_cookie_run aware h p item = Raise e ->
  e = TypeError /\ mixed_kinds aware hs.
Proof.
  intros Hh Hitem Hp. unfold process_cookie_run.
  destruct (Dict.get (normalize_name (fst item)) p) as [v|] eqn:G; [|discriminate].
  destruct (Bool.eqb (aware (hdr_datetime h)) (aware (first_seen v))) eqn:B; [discriminate|].
  intros [= <-]. split; [reflexivity|].
  apply dict_get_in in G. unfold first_seen_from in Hp. rewrite Forall_forall in Hp.
  destruct (Hp _ G) as (h' & raw' & size' & Hc & E). cbn [fst snd] in Hc, E.
  exists (normalize_name (fst item)), h, (fst item), (snd item), h', raw', size'.
  split; [|split; [exact Hc|]].
  - split; [exact Hh|]. split; [|reflexivity]. now destruct item.
  - rewrite <- E. now apply Bool.eqb_false_iff.
Qed.

Lemma process_items_run_raises (hs : list cookie_header) (h : cookie_header)
      (items : list (string * Z)) (p : processed) :
  In h hs -> incl items (cookie_sizes h) -> first_seen_from hs p ->
  match process_items_run aware h items p with
  | Ok p' => first_seen_from hs p'
  | Raise e => e = TypeError /\ mixed_kinds aware hs
  end.
Proof.
  intros Hh. revert p. induction items as [|item items IH]; simpl; intros p Hi Hp.
  - exact Hp.
  - assert (Hitem : In item (cookie_sizes h)) by (apply Hi; now left).
    destruct (process_cookie_run aware h p item) as [p1|e] eqn:E.
    + apply IH; [intros x Hx; apply Hi; now right|].
      apply process_cookie_run_ok in E. destruct E as (-> & _).
      now apply process_cookie_first_seen.
    + now apply (process_cookie_run_raises hs h item p e).
Qed.

Lemma process_headers_run_raises (hs headers : list cookie_header) (p : processed) :
  incl headers hs -> first_seen_from hs p ->
  match process_headers_run aware headers p with
  | Ok p' => first_seen_from hs p'
  | Raise e => e = TypeError /\ mixed_kinds aware hs
  end.
Proof.
  revert p. induction headers as [|h headers IH]; simpl; intros p Hi Hp.
  - exact Hp.
  - assert (Hh : In h hs) by (apply Hi; now left).
    pose proof (process_items_run_raises hs h (cookie_sizes h) p Hh (incl_refl _) Hp) as H1.
    destruct (process_items_run aware h (cookie_sizes h) p) as [p1|e].
    + apply IH; [intros x Hx; apply Hi; now right|exact H1].
    + exact H1.
Qed.

Lemma process_cookie_headers_run_cases (headers : list cookie_header) :
  (process_cookie_headers_run aware headers = Ok (process_cookie_headers headers)
   /\ ~ mixed_kinds aware headers)
  \/ (process_cookie_headers_run aware headers = Raise TypeError
      /\ mixed_kinds aware headers).
Proof.
  unfold process_cookie_headers_run.
  pose proof (process_headers_run_raises headers headers [] (incl_refl _) (Forall_nil _)) as R.
  destruct (process_headers_run aware headers []) as [p|e] eqn:E.
  - left. apply process_headers_run_ok in E. destruct E as (-> & I & _).
    split; [reflexivity|].
    intros (key & h & raw & size & h' & raw' & size' & (Hh & Hi & Hk)
            & (Hh' & Hi' & Hk') & Hne).
    destruct (I h (raw, size) Hh Hi) as (v & G & K).
    destruct (I h' (raw', size') Hh' Hi') as (v' & G' & K').
    cbn [fst] in G, G'. rewrite Hk in G. rewrite Hk' in G'.
    rewrite G in G'. injection G' as <-. apply Hne. now rewrite <- K, <- K'.
  - right. destruct R as [-> M]. split; [reflexivity|exact M].
Qed.

Lemma main_of_records (parse_time : string -> option datetime) (rows : list row)
      (headers : list cookie_header) :
  _load_csv parse_time rows = Ok headers ->
  (mixed_kinds aware headers
   /\ main aware parse_time rows = {| printed := []; ended := Some TypeError |})
  \/ (~ mixed_kinds aware headers
      /\ main aware parse_time rows
         = print_processed_cookies (process_cookie_headers headers)).
Proof.
  intros L. unfold main. rewrite L.
  destruct (process_cookie_headers_run_cases headers) as [[E M]|[E M]]; rewrite E.
  - right. now split.
  - left. now split.
Qed.

Lemma main_loaded (parse_time : string -> option datetime) (rows : list row)
      (l : line) :
  In l (printed (main aware parse_time rows)) ->
  exists headers,
    _load_csv parse_time rows = Ok headers
    /\ main aware parse_time rows
       = print_processed_cookies (process_cookie_headers headers).
Proof.
  destruct (_load_csv parse_time rows) as [headers|e] eqn:L.
  - destruct (main_of_records parse_time rows headers L) as [[_ E]|[_ E]]; rewrite E.
    + intros [].
    + intros _. now exists headers.
  - unfold main. rewrite L. intros [].
Qed.

End KindsOfTimeStamps.



(** X20.  On every data line that [main] prints, also in a run that an
    exception ends, the name is its own replacement, [count] is at least 1,
    the sizes run from a [min_size] that is not negative to [max_size], each
    full size is the size plus the length of the printed name plus 2, the
    header sizes are above 0 and the cookie counts at least 1, each minimum
    no more than its maximum. *)
Theorem report_line_of_main (aware : datetime -> bool)
        (parse_time : string -> option datetime) (rows : list row)
        (name : string) (p : processed_cookie) :
  In (Data name p) (printed (main aware parse_time rows)) ->
  normalize_name name = name
  /\ 1 <= count p
  /\ 0 <= min_size p <= max_size p
  /\ min_full_size p = min_size p + Str.len name + 2
  /\ max_full_size p = max_size p + Str.len name + 2
  /\ 0 < min_header_size p <= max_header_size p
  /\ 1 <= min_cookie_count p <= max_cookie_count p.
Proof.
  intros Hin.
  destruct (main_loaded aware parse_time rows _ Hin) as (headers & L & E).
  rewrite E in Hin. apply report_data_in in Hin.
  assert (G : Dict.get name (process_cookie_headers headers) = Some p).
  { apply dict_in_get; [|exact Hin]. apply process_headers_nodup. constructor. }
  assert (K : normalize_name name = name).
  { assert (Hk : In name (map fst (process_cookie_headers headers)))
      by (apply in_map_iff; now exists (name, p)).
    apply key_present in Hk. destruct Hk as (h & raw & size & _ & _ & <-).
    apply normalize_name_twice. }
  rewrite process_cookie_headers_entry in G.
  assert (Hitem : forall h size,
             In (h, size) (contributions name headers) ->
             0 <= size /\ 0 < cookie_header_size h).
  { intros h size Hc. apply contributions_in in Hc.
    destruct Hc as (raw & Hh & Hi & _).
    destruct (loaded_record_ok parse_time rows headers h L Hh) as (H1 & H2).
    rewrite Forall_forall in H2. destruct (H2 _ Hi) as [_ H3]. auto. }
  destruct (entry_sizes name _ p G) as (Hb & ([hm sm] & Hcm & Em) & _ & _).
  destruct (entry_full_size name _ p G) as (Hmin & Hmax).
  destruct (entry_header_bounds name _ p G)
    as (Hhb & ([h1 s1] & Hc1 & E1) & _ & ([h3 s3] & Hc3 & E3) & _).
  pose proof (entry_count_positive name _ p G) as Hcount.
  simpl in Em, E1, E3.
  destruct (Hitem hm sm Hcm) as [Hsm _].
  destruct (Hitem h3 s3 Hc3) as [_ Hh3].
  pose proof (Hb _ Hcm) as Hbm. pose proof (Hhb _ Hc1) as Hb1. pose proof (Hhb _ Hc3) as Hb3.
  simpl in Hbm, Hb1, Hb3.
  assert (Hlen1 : 1 <= Z.of_nat (List.length (cookie_sizes h1))).
  { apply contributions_in in Hc1. destruct Hc1 as (raw & _ & Hi & _).
    destruct (cookie_sizes h1); [contradiction|simpl List.length; lia]. }
  split; [exact K|]. split; [exact Hcount|]. split; [lia|]. split; [exact Hmin|].
  split.
  - destruct Hmax as [[_ E']|(Hall & _)]; [exact E'|].
    specialize (Hall _ Hcm). simpl in Hall. lia.
  - split; lia.
Qed.

Lemma report_line_of_main_witness :
  let aware := fun _ : datetime => true in
  let parse_time := fun t : string => Some (Str.int t) in
  let rows :=
    [ {| _raw := Some "BEGIN-COOKIE-SIZES(total=90) csrftoken: 64, _hjSession_123456: 10 END-COOKIE-SIZES";
         _time := Some "7"; index := Some "prod" |};
      {| _raw := Some "BEGIN-COOKIE-SIZES(total=81) csrftoken: 70 END-COOKIE-SIZES";
         _time := Some "9"; index := Some "stage" |} ] in
  exists p,
    In (Data "csrftoken" p) (printed (main aware parse_time rows))
    /\ ended (main aware parse_time rows) = None
    /\ min_size p = 64 /\ max_size p = 70 /\ count p = 2
    /\ envs p = [Some "prod"; Some "stage"]
    /\ max_full_size p = max_size p + Str.len "csrftoken" + 2.
Proof.
  intros aware parse_time rows.
  assert (Hin : In (Data "csrftoken"
                         {| count := 2; min_size := 64; max_size := 70; min_full_size := 75;
                            max_full_size := 81; first_seen := 7;
                            envs := [Some "prod"; Some "stage"];
                            max_cookie_count := 2; min_cookie_count := 1;
                            max_header_size := 90; min_header_size := 81 |})
                   (printed (main aware parse_time rows)))
    by (vm_compute; right; left; reflexivity).
  eexists. split; [exact Hin|]. split; [vm_compute; reflexivity|].
  destruct (report_line_of_main aware parse_time rows _ _ Hin) as (_ & _ & _ & _ & H & _).
  repeat (split; [reflexivity|]). exact H.
Defined.







Lemma load_rows_passed_over (parse_time : string -> option datetime) (rows : list row)
      (st : loader) :
  Forall passed_over rows ->
  exists st', load_rows parse_time st rows = Ok st' /\ same_data st' st.
Proof.
  intros H. revert st. induction H as [|r rows Hr _ IH]; intros st; simpl.
  - exists st. split; [reflexivity|apply same_data_refl].
  - destruct (load_row_passed_over parse_time st r Hr) as (s1 & E & Hs). rewrite E.
    destruct (IH s1) as (s2 & E2 & Hs2). exists s2. split; [exact E2|].
    eapply same_data_trans; eauto.
Qed.

(** X22.  A batch in which every row is passed over (several begin markers,
    no match of the pattern, or a declared total that [int] reads as 0)
    raises nothing and prints the line of column names and no other line;
    so does the empty batch. *)
Theorem report_of_rows_passed_over (aware : datetime -> bool)
        (parse_time : string -> option datetime) (rows : list row) :
  Forall passed_over rows ->
  _load_csv parse_time rows = Ok []
  /\ exists columns,
      main aware parse_time rows = {| printed := [Header columns]; ended := None |}.
Proof.
  intros H.
  destruct (load_rows_passed_over parse_time rows loader_init H) as (st & E & _ & Hh).
  assert (L : _load_csv parse_time rows = Ok [])
    by (unfold _load_csv; rewrite E; simpl in Hh; now rewrite Hh).
  split; [exact L|]. unfold main. rewrite L. eexists. reflexivity.
Qed.

Lemma report_of_rows_passed_over_witness :
  let aware := fun _ : datetime => false in
  let parse_time := fun _ : string => None in
  let rows :=
    [ {| _raw := Some "GET /dashboard 200"; _time := None; index := None |};
      {| _raw := Some "BEGIN-COOKIE-SIZES(total=0) a: 1 END-COOKIE-SIZES";
         _time := Some "never"; index := Some "prod" |} ] in
  _load_csv parse_time rows = Ok []
  /\ exists columns,
      main aware parse_time rows = {| printed := [Header columns]; ended := None |}.
Proof.
  intros aware parse_time rows. apply (report_of_rows_passed_over aware parse_time rows).
  constructor; [|constructor; [|constructor]].
  - eexists. split; [reflexivity|]. right. left. vm_compute. reflexivity.
  - eexists. split; [reflexivity|]. right. right. eexists.
    split; vm_compute; reflexivity.
Defined.

(** ** The loader: the fragments of a payload *)

Lemma parse_cookie_sizes_split (fragments : list string) (sizes : list (string * Z))
      (log : list log_entry) :
  fold_left parse_cookie_size fragments (sizes, log)
  = (fst (fold_left parse_cookie_size (filter fragment_ok fragments) (sizes, [])),
     (log ++ map fragment_error (filter (fun f => negb (fragment_ok f)) fragments))%list).
Proof.
  revert sizes log. induction fragments as [|f fragments IH]; intros sizes log.
  - simpl. now rewrite app_nil_r.
  - cbn [fold_left filter].
    destruct (search cookie_size_regex f) as [m|] eqn:E.
    + assert (Ef : fragment_ok f = true) by (unfold fragment_ok; now rewrite E).
      assert (Ep : forall a, parse_cookie_size a f
                             = (Dict.set (group_of "name" m) (Str.int (group_of "size" m))
                                         (fst a), snd a))
        by (intros a; unfold parse_cookie_size; now rewrite E).
      rewrite Ef. cbn [negb fold_left]. rewrite !Ep. cbn [fst snd]. now rewrite IH.
    + assert (Ef : fragment_ok f = false) by (unfold fragment_ok; now rewrite E).
      assert (Ep : forall a, parse_cookie_size a f
                             = (fst a, (snd a ++ [fragment_error f])%list))
        by (intros a; unfold parse_cookie_size; now rewrite E).
      rewrite Ef. cbn [negb map]. rewrite Ep. cbn [fst snd]. rewrite IH.
      now rewrite <- app_assoc.
Qed.

(** X23.  In the loop over the fragments of a payload, a fragment on which
    the pattern of one size does not match changes nothing in the cookies:
    they are what the matching fragments alone give.  Each such fragment
    adds one error entry to the log, in the order of the fragments, and
    nothing else is logged. *)
Theorem unparsed_fragments_skipped (fragments : list string) (sizes : list (string * Z))
        (log : list log_entry) :
  fst (fold_left parse_cookie_size fragments (sizes, log))
  = fst (fold_left parse_cookie_size (filter fragment_ok fragments) (sizes, log))
  /\ snd (fold_left parse_cookie_size fragments (sizes, log))
     = (log ++ map fragment_error (filter (fun f => negb (fragment_ok f)) fragments))%list.
Proof.
  split.
  - rewrite parse_cookie_sizes_split. simpl. apply parse_cookie_sizes_fst.
  - now rewrite parse_cookie_sizes_split.
Qed.

Lemma parse_cookie_sizes_keep (name : string) (fragments : list string)
      (acc : list (string * Z) * list log_entry) :
  (forall f m, In f fragments -> search cookie_size_regex f = Some m ->
               group_of "name" m <> name) ->
  Dict.get name (fst (fold_left parse_cookie_size fragments acc)) = Dict.get name (fst acc).
Proof.
  revert acc. induction fragments as [|f fragments IH]; intros acc H; [reflexivity|].
  cbn [fold_left]. rewrite IH by (intros f' m' Hin; apply H; now right).
  unfold parse_cookie_size.
  destruct (search cookie_size_regex f) as [m|] eqn:E; [|reflexivity].
  simpl. apply dict_get_set_other. apply (H f m); [now left|exact E].
Qed.

(** X24.  When a name comes up in several fragments of a payload, the record
    keeps the size of the last of them: after a matching fragment, the size
    stored under its name is its own as long as no later fragment has the
    same name. *)
Theorem last_size_of_a_name_wins (before after : list string) (fragment : string)
        (m : captures) (acc : list (string * Z) * list log_entry) :
  search cookie_size_regex fragment = Some m ->
  (forall f m', In f after -> search cookie_size_regex f = Some m' ->
                group_of "name" m' <> group_of "name" m) ->
  Dict.get (group_of "name" m)
           (fst (fold_left parse_cookie_size (before ++ fragment :: after) acc))
  = Some (Str.int (group_of "size" m)).
Proof.
  intros Hm Hafter. rewrite fold_left_app. cbn [fold_left].
  rewrite parse_cookie_sizes_keep by exact Hafter.
  unfold parse_cookie_size at 1. rewrite Hm. simpl. apply dict_get_set_same.
Qed.

Lemma last_size_of_a_name_wins_witness :
  Dict.get "a" (fst (fold_left parse_cookie_size (["a: 1"; "bb: 22"] ++ "a: 5" :: ["c: 3"])
                               ([], [])))
  = Some 5.
Proof.
  refine (last_size_of_a_name_wins ["a: 1"; "bb: 22"] ["c: 3"] "a: 5"
            [("size", "5"); ("name", "a")] ([], []) _ _).
  - vm_compute. reflexivity.
  - intros f m' [<-|[]] H. vm_compute in H. injection H as <-. vm_compute. discriminate.
Defined.

(** ** The aggregation: the order of the headers *)

Lemma entry_count (key : string) (l : list (cookie_header * Z)) (p : processed_cookie) :
  entry_from key l None = Some p -> count p = Z.of_nat (List.length l).
Proof.
  revert l p. apply (entry_from_ind key (fun l p => count p = Z.of_nat (List.length l))).
  - intros c. reflexivity.
  - intros l c p H. rewrite length_app. simpl. lia.
Qed.

Lemma entry_full_bounds (key : string) (l : list (cookie_header * Z)) (p : processed_cookie) :
  entry_from key l None = Some p ->
  (forall c, In c l -> min_full_size p <= Str.len key + snd c + 2 <= max_full_size p)
  /\ (exists c, In c l /\ Str.len key + snd c + 2 = min_full_size p)
  /\ (max_full_size p = 0 \/ exists c, In c l /\ Str.len key + snd c + 2 = max_full_size p)
  /\ 0 <= max_full_size p.
Proof.
  revert l p. apply entry_from_ind.
  - intros c. simpl. split; [|split; [|split]].
    + intros c' [<-|[]]. lia.
    + exists c. split; [now left|lia].
    + destruct (Z.max_spec (Str.len key + snd c + 2) 0) as [[_ E]|[_ E]]; [now left|].
      right. exists c. split; [now left|now rewrite E].
    + lia.
  - intros l c p (Hb & (cm & Hcm & Em) & Hx & H0). simpl.
    split; [|split; [|split]].
    + intros c' Hin. apply in_app_iff in Hin. destruct Hin as [Hin|[<-|[]]].
      * specialize (Hb c' Hin). lia.
      * lia.
    + destruct (Z.min_spec (Str.len key + snd c + 2) (min_full_size p)) as [[_ E]|[_ E]];
        rewrite E.
      * exists c. split; [apply in_app_iff; right; now left|reflexivity].
      * exists cm. split; [apply in_app_iff; now left|exact Em].
    + destruct (Z.max_spec (Str.len key + snd c + 2) (max_full_size p)) as [[_ E]|[_ E]];
        rewrite E.
      * destruct Hx as [Hx|(cx & Hcx & Ex)]; [now left|].
        right. exists cx. split; [apply in_app_iff; now left|exact Ex].
      * right. exists c. split; [apply in_app_iff; right; now left|reflexivity].
    + lia.
Qed.

Lemma entry_header_nonneg (key : string) (l : list (cookie_header * Z))
      (p : processed_cookie) :
  entry_from key l None = Some p -> 0 <= max_header_size p.
Proof.
  revert l p. apply (entry_from_ind key (fun _ p => 0 <= max_header_size p)).
  - intros c. simpl. lia.
  - intros l c p H. simpl. lia.
Qed.

Section Tight.
Context {A : Type}.
Variable f : A -> Z.
Variables l l' : list A.
Hypothesis same : forall c, In c l <-> In c l'.

Lemma least_unique (a a' : Z) :
  (forall c, In c l -> a <= f c) -> (exists c, In c l /\ f c = a) ->
  (forall c, In c l' -> a' <= f c) -> (exists c, In c l' /\ f c = a') ->
  a' = a.
Proof.
  intros H1 (c & Hc & E) H1' (c' & Hc' & E').
  pose proof (H1 c' (proj2 (same c') Hc')). pose proof (H1' c (proj1 (same c) Hc)). lia.
Qed.

Lemma greatest_or_zero_unique (b b' : Z) :
  (forall c, In c l -> f c <= b) -> (b = 0 \/ exists c, In c l /\ f c = b) -> 0 <= b ->
  (forall c, In c l' -> f c <= b') -> (b' = 0 \/ exists c, In c l' /\ f c = b') -> 0 <= b' ->
  b' = b.
Proof.
  intros H1 H2 H3 H1' H2' H3'.
  destruct H2 as [->|(c & Hc & E)], H2' as [->|(c' & Hc' & E')]; try reflexivity.
  - pose proof (H1 c' (proj2 (same c') Hc')). lia.
  - pose proof (H1' c (proj1 (same c) Hc)). lia.
  - pose proof (H1 c' (proj2 (same c') Hc')). pose proof (H1' c (proj1 (same c) Hc)). lia.
Qed.
End Tight.

Lemma entry_of_permutation (key : string) (l l' : list (cookie_header * Z))
      (p : processed_cookie) :
  Permutation l l' ->
  entry_from key l None = Some p ->
  exists p',
    entry_from key l' None = Some p'
    /\ count p' = count p
    /\ min_size p' = min_size p /\ max_size p' = max_size p
    /\ min_full_size p' = min_full_size p /\ max_full_size p' = max_full_size p
    /\ first_seen p' = first_seen p
    /\ min_cookie_count p' = min_cookie_count p /\ max_cookie_count p' = max_cookie_count p
    /\ min_header_size p' = min_header_size p /\ max_header_size p' = max_header_size p
    /\ (forall e, In e (envs p') <-> In e (envs p)).
Proof.
  intros Hperm G.
  assert (same : forall c, In c l <-> In c l').
  { intros c. split; apply Permutation_in; [exact Hperm|now apply Permutation_sym]. }
  destruct (entry_from key l' None) as [p'|] eqn:G'.
  2:{ apply entry_from_none in G'. subst l'. apply Permutation_sym, Permutation_nil in Hperm.
      subst l. discriminate. }
  exists p'. split; [reflexivity|].
  destruct (entry_sizes key l p G) as (S1 & S2 & S3 & S4).
  destruct (entry_sizes key l' p' G') as (S1' & S2' & S3' & S4').
  destruct (entry_full_bounds key l p G) as (F1 & F2 & F3 & F4).
  destruct (entry_full_bounds key l' p' G') as (F1' & F2' & F3' & F4').
  destruct (entry_first_seen key l p G) as (T1 & T2).
  destruct (entry_first_seen key l' p' G') as (T1' & T2').
  destruct (entry_header_bounds key l p G) as (B1 & B2 & B3 & B4 & B5).
  destruct (entry_header_bounds key l' p' G') as (B1' & B2' & B3' & B4' & B5').
  destruct (entry_envs key l p G) as (E1 & _).
  destruct (entry_envs key l' p' G') as (E1' & _).
  repeat split.
  - rewrite (entry_count key l p G), (entry_count key l' p' G').
    now rewrite (Permutation_length Hperm).
  - apply (least_unique snd l l' same); auto; intros c Hc;
      [apply (S1 c Hc)|apply (S1' c Hc)].
  - apply (greatest_or_zero_unique snd l l' same); auto; intros c Hc;
      [apply (S1 c Hc)|apply (S1' c Hc)].
  - apply (least_unique (fun c => Str.len key + snd c + 2) l l' same); auto; intros c Hc;
      [apply (F1 c Hc)|apply (F1' c Hc)].
  - apply (greatest_or_zero_unique (fun c => Str.len key + snd c + 2) l l' same); auto;
      intros c Hc; [apply (F1 c Hc)|apply (F1' c Hc)].
  - apply (least_unique (fun c => hdr_datetime (fst c)) l l' same); auto.
  - apply (least_unique (fun c => Z.of_nat (List.length (cookie_sizes (fst c)))) l l' same);
      auto; intros c Hc; [apply (B1 c Hc)|apply (B1' c Hc)].
  - apply (greatest_or_zero_unique
             (fun c => Z.of_nat (List.length (cookie_sizes (fst c)))) l l' same).
    + intros c Hc. apply (B1 c Hc).
    + now right.
    + destruct B3 as (c & _ & <-). lia.
    + intros c Hc. apply (B1' c Hc).
    + now right.
    + destruct B3' as (c & _ & <-). lia.
  - apply (least_unique (fun c => cookie_header_size (fst c)) l l' same); auto;
      intros c Hc; [apply (B1 c Hc)|apply (B1' c Hc)].
  - apply (greatest_or_zero_unique (fun c => cookie_header_size (fst c)) l l' same); auto.
    + intros c Hc. apply (B1 c Hc).
    + apply (entry_header_nonneg key l p G).
    + intros c Hc. apply (B1' c Hc).
    + apply (entry_header_nonneg key l' p' G').
  - rewrite E1'. intros (c & Hc & He). apply E1. exists c. split; [now apply same|exact He].
  - rewrite E1. intros (c & Hc & He). apply E1'. exists c. split; [now apply same|exact He].
Qed.

(** X25.  The order of the headers does not matter for the numbers of an
    entry: when the same headers are processed in another order, every key
    that has an entry still has one, with the same [count], the same eight
    bounds and the same [first_seen], and with the same environments in
    [envs]. *)
Theorem header_order_irrelevant (headers headers' : list cookie_header) (key : string)
        (p : processed_cookie) :
  Permutation headers headers' ->
  Dict.get key (process_cookie_headers headers) = Some p ->
  exists p',
    Dict.get key (process_cookie_headers headers') = Some p'
    /\ count p' = count p
    /\ min_size p' = min_size p /\ max_size p' = max_size p
    /\ min_full_size p' = min_full_size p /\ max_full_size p' = max_full_size p
    /\ first_seen p' = first_seen p
    /\ min_cookie_count p' = min_cookie_count p /\ max_cookie_count p' = max_cookie_count p
    /\ min_header_size p' = min_header_size p /\ max_header_size p' = max_header_size p
    /\ (forall e, In e (envs p') <-> In e (envs p)).
Proof.
  intros Hperm. rewrite !process_cookie_headers_entry.
  apply entry_of_permutation. unfold contributions.
  now apply Permutation_flat_map.
Qed.

Lemma header_order_irrelevant_witness :
  exists p',
    Dict.get "csrftoken" (process_cookie_headers (rev sample_headers)) = Some p'
    /\ count p' = 2 /\ min_size p' = 64 /\ max_size p' = 70 /\ first_seen p' = 3.
Proof.
  destruct (Dict.get "csrftoken" (process_cookie_headers sample_headers)) as [p|] eqn:E;
    [|vm_compute in E; discriminate].
  destruct (header_order_irrelevant sample_headers (rev sample_headers) "csrftoken" p
              (Permutation_rev sample_headers) E)
    as (p' & G & Hc & Hmin & Hmax & _ & _ & Hf & _).
  exists p'. split; [exact G|].
  vm_compute in E. injection E as <-.
  rewrite Hc, Hmin, Hmax, Hf. repeat split.
Defined.

(** ** The names of the [ab.storage] cookies in a batch *)

Lemma no_line_feed_drop (n : nat) (s : string) :
  no_line_feed s = true -> no_line_feed (Str.drop n s) = true.
Proof.
  revert s. induction n as [|n IH]; intros s H; [destruct s; exact H|].
  destruct s as [|c s]; [exact H|].
  simpl. apply IH. unfold no_line_feed in H. simpl in H.
  apply andb_true_iff in H. tauto.
Qed.

Lemma no_line_feed_one_line (s : string) : no_line_feed s = true -> one_line s = true.
Proof.
  unfold no_line_feed. induction s as [|c s IH]; simpl; [reflexivity|].
  intros H. apply andb_true_iff in H. destruct H as [Hc Hs].
  destruct (Ascii.eqb c newline); [discriminate|now apply IH].
Qed.

Lemma ab_storage_name_on_one_line (name : string) :
  no_line_feed name = true ->
  Str.startswith "ab.storage.sessionId" name = true
  \/ Str.startswith "ab.storage.deviceId" name = true ->
  normalize_name name = "ab.storage.deviceId.{id}".
Proof.
  intros Hn [H|H]; apply startswith_split in H; rewrite H.
  - apply ab_storage_sessionId. now apply no_line_feed_one_line, no_line_feed_drop.
  - apply ab_storage_deviceId. now apply no_line_feed_one_line, no_line_feed_drop.
Qed.

(** C10.  Every raw name that begins with [ab.storage.sessionId] and every
    raw name that begins with [ab.storage.deviceId] is replaced by the one
    key [ab.storage.deviceId.{id}], so the cookies of both kinds are counted
    in the entry of that key.  A raw name is a name of a cookie of a record
    that the loader returns; it holds no line feed, the pattern of one size
    taking the name from one line. *)
Theorem raw_ab_storage_names_share_key :
  (forall name,
      no_line_feed name = true ->
      Str.startswith "ab.storage.sessionId" name = true
      \/ Str.startswith "ab.storage.deviceId" name = true ->
      normalize_name name = "ab.storage.deviceId.{id}")
  /\ (forall parse_time rows headers h name size,
         _load_csv parse_time rows = Ok headers ->
         In h headers ->
         In (name, size) (cookie_sizes h) ->
         Str.startswith "ab.storage.sessionId" name = true
         \/ Str.startswith "ab.storage.deviceId" name = true ->
         normalize_name name = "ab.storage.deviceId.{id}"
         /\ contributes "ab.storage.deviceId.{id}" headers h name size
         /\ exists p,
             Dict.get "ab.storage.deviceId.{id}" (process_cookie_headers headers) = Some p).
Proof.
  split; [exact ab_storage_name_on_one_line|].
  intros parse_time rows headers h name size L Hh Hi Hs.
  destruct (loaded_record_ok parse_time rows headers h L Hh) as (_ & Hok).
  rewrite Forall_forall in Hok. destruct (Hok _ Hi) as [Hn _]. simpl in Hn.
  pose proof (ab_storage_name_on_one_line name Hn Hs) as E.
  assert (C : contributes "ab.storage.deviceId.{id}" headers h name size)
    by (split; [exact Hh|split; [exact Hi|exact E]]).
  split; [exact E|]. split; [exact C|].
  destruct (Dict.get "ab.storage.deviceId.{id}" (process_cookie_headers headers))
    as [p|] eqn:G; [now exists p|].
  apply dict_get_none in G. exfalso. apply G.
  apply key_present. now exists h, name, size.
Qed.

Lemma raw_ab_storage_names_share_key_witness :
  let parse_time := fun _ : string => Some 0 in
  let rows :=
    [ {| _raw := Some "BEGIN-COOKIE-SIZES(total=90) ab.storage.sessionId.a1b2: 40, ab.storage.deviceId.a1b2: 36 END-COOKIE-SIZES";
         _time := Some "2021-06-01 10:00:00"; index := Some "prod" |} ] in
  normalize_name "ab.storage.sessionId.a1b2" = "ab.storage.deviceId.{id}"
  /\ normalize_name "ab.storage.deviceId.a1b2" = "ab.storage.deviceId.{id}"
  /\ exists headers p,
      _load_csv parse_time rows = Ok headers
      /\ Dict.get "ab.storage.deviceId.{id}" (process_cookie_headers headers) = Some p
      /\ count p = 2.
Proof.
  intros parse_time rows.
  destruct raw_ab_storage_names_share_key as [Hname Hrow].
  split; [apply Hname; [reflexivity|now left]|].
  split; [apply Hname; [reflexivity|now right]|].
  destruct (_load_csv parse_time rows) as [headers|e] eqn:L; [|vm_compute in L; discriminate].
  assert (L' := L). vm_compute in L'. injection L' as L'.
  assert (Hh : exists h, In h headers
                         /\ In ("ab.storage.sessionId.a1b2", 40) (cookie_sizes h))
    by (rewrite <- L'; eexists; split; [now left|now left]).
  destruct Hh as (h & Hh & Hi).
  destruct (Hrow parse_time rows headers h _ _ L Hh Hi (or_introl eq_refl))
    as (_ & _ & p & G).
  exists headers, p. split; [reflexivity|]. split; [exact G|].
  rewrite <- L' in G. vm_compute in G. injection G as <-. reflexivity.
Defined.
